(** * Normal sampling algorithms: a shallow embedding of the notebook

    The notebook "Comparsion of Normal Sampling Algorithms" times four
    generators of standard-normal variates (Box-Mueller, Acceptance-Rejection
    with a Laplace proposal, Bray-Marsaglia polar, Beasley-Springer-Moro
    inverse CDF) and ranks the elapsed times.

    The code cells are embedded once, over an interface [Arith] of the
    arithmetic they use, and read at two instances:
    - [binary64]: Python's floats (IEEE 754 double precision, round to nearest
      even) through Rocq's primitive floats, with the C library functions
      (log, exp, cos, sin, pow) left as a parameter [libm];
    - [exact]: the same formulas in exact real arithmetic.

    What the cells decide (which draws a loop takes, when it restarts, what
    it raises, how many passes it makes) is proved once for every
    arithmetic. Questions of exact equality of outputs and of the loop bound
    [int(N / 2)] are settled in binary64, where rounding shows; the
    properties that rest on the mathematics of [ln], [exp] and the
    polynomials are proved in exact arithmetic.

    The uniform source and the timer are replayed from recorded traces: a
    [world] holds the values still to be returned by [np.random.uniform] and
    by [time.time]. Where a property depends on which floats the source
    can return, they are the multiples [k / 2^53] of [uniform53]. *)

From Stdlib Require Import ZArith Reals Lra Lia List Bool String.
From Stdlib Require Import Floats Permutation Sorted.
From Stdlib Require Uint63.
Import ListNotations.

Set Implicit Arguments.

(** ** Outcomes of a cell *)

(** The Python exceptions the arithmetic of the notebook can raise. *)
Inductive exn : Type :=
| ValueError          (* math domain error: math.log, math.sqrt *)
| ZeroDivisionError   (* float division by zero *)
| OverflowError.      (* int / int too large for a float *)

(** A run either finishes, raises, or asks the replayed trace for a value it
    does not hold ([Starved]: the trace was too short for the run). *)
Inductive outcome (A : Type) : Type :=
| Done (a : A)
| Raised (e : exn)
| Starved.

Arguments Done {A} a.
Arguments Raised {A} e.
Arguments Starved {A}.

Definition outcome_map {A B : Type} (f : A -> B) (o : outcome A) : outcome B :=
  match o with
  | Done a => Done (f a)
  | Raised e => Raised e
  | Starved => Starved
  end.

(** ** The arithmetic interface *)

Class Arith (F : Type) : Type := {
  (** the decimal literal [m * 10^-k] *)
  dec : Z -> nat -> F;
  (** [math.pi] *)
  pi : F;
  fadd : F -> F -> F;
  fsub : F -> F -> F;
  fmul : F -> F -> F;
  fdiv : F -> F -> F;
  fopp : F -> F;
  fabs : F -> F;
  (** [<], [<=], [==] *)
  fltb : F -> F -> bool;
  fleb : F -> F -> bool;
  feqb : F -> F -> bool;
  (** [math.sqrt], [math.log], [math.exp], [math.cos], [math.sin] on
      arguments of their domain, [np.log], and [x ** 2] on Python floats.
      The domain errors of [math.log] and [math.sqrt] are added below; the
      other functions raise only where the cells never call them (an
      overflowing [exp] or power, the cosine of an infinity). *)
  m_sqrt : F -> F;
  m_log : F -> F;
  m_exp : F -> F;
  m_cos : F -> F;
  m_sin : F -> F;
  np_log : F -> F;
  m_pow2 : F -> F;
  (** [N / 2] for a Python int [N] (true division: the quotient rounded
      once); [None] when it is too large for a float *)
  truediv2 : Z -> option F;
  (** [int(x)]: truncation toward zero; [None] when [x] is not finite *)
  int_of : F -> option Z
}.

Declare Scope py_scope.
Delimit Scope py_scope with py.
Infix "+" := fadd : py_scope.
Infix "-" := fsub : py_scope.
Infix "*" := fmul : py_scope.
Infix "/" := fdiv : py_scope.
Notation "- x" := (fopp x) : py_scope.
Infix "<?" := fltb : py_scope.
Infix "<=?" := fleb : py_scope.
Infix "==?" := feqb (at level 70) : py_scope.

(** ** The notebook, over any arithmetic *)

Section Notebook.

Context {F : Type} `{Arith F}.

Local Open Scope py_scope.

(** Literals of the code cells. *)
Definition lit_0 : F := dec 0 0.
Definition lit_1 : F := dec 1 0.
Definition lit_2 : F := dec 2 0.
Definition lit_m1 : F := dec (-1) 0.
Definition lit_m2 : F := dec (-2) 0.
Definition lit_0_5 : F := dec 5 1.
Definition lit_m0_5 : F := dec (-5) 1.
Definition lit_0_42 : F := dec 42 2.

(** Beasley-Springer-Moro constants. *)
Definition a0 : F := dec 250662823884 11.       (* 2.50662823884 *)
Definition a1 : F := dec (-1861500062529) 11.   (* -18.61500062529 *)
Definition a2 : F := dec 4139119773534 11.      (* 41.39119773534 *)
Definition a3 : F := dec (-2544106049637) 11.   (* -25.44106049637 *)
Definition b0 : F := dec (-847351093090) 11.    (* -8.47351093090 *)
Definition b1 : F := dec 2308336743743 11.      (* 23.08336743743 *)
Definition b2 : F := dec (-2106224101826) 11.   (* -21.06224101826 *)
Definition b3 : F := dec 313082909833 11.       (* 3.13082909833 *)
Definition c0 : F := dec 3374754822726147 16.   (* 0.3374754822726147 *)
Definition c1 : F := dec 9761690190917186 16.   (* 0.9761690190917186 *)
Definition c2 : F := dec 1607979714918209 16.   (* 0.1607979714918209 *)
Definition c3 : F := dec 276438810333863 16.    (* 0.0276438810333863 *)
Definition c4 : F := dec 38405729373609 16.     (* 0.0038405729373609 *)
Definition c5 : F := dec 3951896511919 16.      (* 0.0003951896511919 *)
Definition c6 : F := dec 321767881768 16.       (* 0.0000321767881768 *)
Definition c7 : F := dec 2888167364 16.         (* 0.0000002888167364 *)
Definition c8 : F := dec 3960315187 16.         (* 0.0000003960315187 *)

(** *** Library calls that can raise *)

(** [math.log(x)]: ValueError unless [x > 0]. *)
Definition math_log (x : F) : outcome F :=
  if x <=? lit_0 then Raised ValueError else Done (m_log x).

(** [math.sqrt(x)]: ValueError when [x < 0]. *)
Definition math_sqrt (x : F) : outcome F :=
  if x <? lit_0 then Raised ValueError else Done (m_sqrt x).

(** [x / y] on Python floats: ZeroDivisionError when [y == 0]. *)
Definition float_div (x y : F) : outcome F :=
  if y ==? lit_0 then Raised ZeroDivisionError else Done (x / y).

(** [np.sign(y)]. *)
Definition np_sign (y : F) : F :=
  if lit_0 <? y then lit_1
  else if y <? lit_0 then lit_m1
  else if y ==? lit_0 then lit_0
  else y.

(** *** The replayed world and the monad of a cell *)

Record world : Type := {
  draws : list F;   (* values np.random.uniform will return, in order *)
  ticks : list F    (* values time.time will return, in order *)
}.

Definition M (A : Type) : Type := world -> outcome (A * world).

Definition ret {A : Type} (a : A) : M A := fun w => Done (a, w).

Definition bind {A B : Type} (m : M A) (k : A -> M B) : M B :=
  fun w =>
    match m w with
    | Done (a, w') => k a w'
    | Raised e => Raised e
    | Starved => Starved
    end.

Definition lift {A : Type} (o : outcome A) : M A :=
  fun w => outcome_map (fun a => (a, w)) o.

(** [np.random.uniform(low, high, 1)]: the next recorded draw. The bounds
    only say in which interval the recorded value lies. *)
Definition uniform (low high : F) : M F :=
  fun w =>
    match draws w with
    | [] => Starved
    | u :: ds => Done (u, {| draws := ds; ticks := ticks w |})
    end.

(** [time.time()]: the next recorded clock reading. *)
Definition now : M F :=
  fun w =>
    match ticks w with
    | [] => Starved
    | t :: ts => Done (t, {| draws := draws w; ticks := ts |})
    end.

Notation "x <- m ;; k" := (bind m (fun x => k))
  (at level 61, m at next level, right associativity).

(** The same sequencing for calls that touch no trace. *)
Definition outcome_bind {A B : Type} (o : outcome A) (k : A -> outcome B)
  : outcome B :=
  match o with
  | Done a => k a
  | Raised e => Raised e
  | Starved => Starved
  end.

Notation "x <~ o ;; k" := (outcome_bind o (fun x => k))
  (at level 61, o at next level, right associativity).

(** *** Loops *)

(** What one pass through the body of a [while True:] loop decides. *)
Inductive pass (A : Type) : Type :=
| Break (a : A)
| Again.

Arguments Again {A}.

Fixpoint while_fuel {A : Type} (fuel : nat) (body : M (pass A)) (w : world)
  : outcome (A * world) :=
  match fuel with
  | O => Starved
  | S k =>
      match body w with
      | Done (Break a, w') => Done (a, w')
      | Done (Again, w') => while_fuel k body w'
      | Raised e => Raised e
      | Starved => Starved
      end
  end.

(** [while True: body]. Every pass of the two loops of the notebook begins
    by drawing, so a loop completes at most [length (draws w)] passes before
    the trace starves: that many passes and one more is all it can use. *)
Definition while_true {A : Type} (body : M (pass A)) : M A :=
  fun w => while_fuel (S (List.length (draws w))) body w.

(** [for i in range(n): body], keeping what each pass produced. *)
Fixpoint for_range {A : Type} (n : nat) (body : M A) : M (list A) :=
  match n with
  | O => ret []
  | S k => a <- body ;; l <- for_range k body ;; ret (a :: l)
  end.

(** *** Cell 5: Box-Mueller *)

Definition box_mueller : M (F * F) :=
  U1 <- uniform lit_0 lit_1 ;;
  U2 <- uniform lit_0 lit_1 ;;
  c <- lift (math_sqrt (lit_m2 * np_log U1)) ;;
  let Z1 := c * m_cos ((lit_2 * pi) * U2) in
  let Z2 := c * m_sin ((lit_2 * pi) * U2) in
  ret (Z1, Z2).

(** *** Cell 8: Acceptance-Rejection *)

Definition ar_pass : M (pass F) :=
  U1 <- uniform lit_0 lit_1 ;;
  U2 <- uniform lit_0 lit_1 ;;
  U3 <- uniform lit_0 lit_1 ;;
  l <- lift (math_log U1) ;;
  let X := - l in
  if U2 <=? m_exp (lit_m0_5 * m_pow2 (X - lit_1)) then
    if U3 <=? lit_0_5 then
      let X := - X in
      ret (Break X)
    else ret Again
  else ret Again.

Definition acceptance_rejection : M F := while_true ar_pass.

(** *** Cell 11: Bray-Marsaglia *)

Definition polar_pass : M (pass (F * F)) :=
  U1 <- uniform lit_m1 lit_1 ;;
  U2 <- uniform lit_m1 lit_1 ;;
  (* on a numpy array [U ** 2] squares elementwise *)
  let S := (U1 * U1) + (U2 * U2) in
  if S <=? lit_1 then
    lx <- lift (math_log S) ;;
    sx <- lift (math_sqrt (lit_m2 * lx / S)) ;;
    let X := U1 * sx in
    ly <- lift (math_log S) ;;
    sy <- lift (math_sqrt (lit_m2 * ly / S)) ;;
    let Y := U2 * sy in
    ret (Break (X, Y))
  else ret Again.

Definition bray_marsaglia : M (F * F) := while_true polar_pass.

(** *** Cell 14: Beasley-Springer-Moro *)

Definition bsm_numerator (r : F) : F :=
  a0 + r * (a1 + r * (a2 + r * a3)).

Definition bsm_denominator (r : F) : F :=
  lit_1 + r * (b0 + r * (b1 + r * (b2 + r * b3))).

Definition bsm_tail (r : F) : F :=
  c0 + r * (c1 + r * (c2 + r * (c3 + r * (c4 + r * (c5 + r * (c6 + r * (c7 + r * c8))))))).

(** The body of the loop after the draw: the variate computed from [U]. *)
Definition inverse_cdf (U : F) : outcome F :=
  let Y := U - lit_0_5 in
  if fabs Y <? lit_0_42 then
    let r := Y * Y in
    float_div (Y * bsm_numerator r) (bsm_denominator r)
  else
    let r := U in
    let r := if lit_0 <? Y then lit_1 - U else r in
    l <~ math_log r ;;
    r <~ math_log (- l) ;;
    let X := bsm_tail r in
    Done (X * np_sign Y).

Definition beasley_springer_moro : M F :=
  U <- uniform lit_0 lit_1 ;;
  lift (inverse_cdf U).

(** *** The timed loops *)

(** [int(N / 2)], the bound of the loops over pairs. *)
Definition int_half (N : Z) : outcome Z :=
  match truediv2 N with
  | None => Raised OverflowError
  | Some q =>
      match int_of q with
      | None => Raised OverflowError
      | Some k => Done k
      end
  end.

(** [for i in range(int(N / 2))] over Box-Mueller, and its siblings; a
    range with a bound below one is empty. *)
Definition run_box_mueller (N : Z) : M (list (F * F)) :=
  n <- lift (int_half N) ;; for_range (Z.to_nat n) box_mueller.

Definition run_acceptance_rejection (N : Z) : M (list F) :=
  for_range (Z.to_nat N) acceptance_rejection.

Definition run_bray_marsaglia (N : Z) : M (list (F * F)) :=
  n <- lift (int_half N) ;; for_range (Z.to_nat n) bray_marsaglia.

Definition run_beasley_springer_moro (N : Z) : M (list F) :=
  for_range (Z.to_nat N) beasley_springer_moro.

(** [t0 = time.time(); run; t1 = time.time(); t1 - t0]. *)
Definition timed {A : Type} (run : M A) : M F :=
  t0 <- now ;;
  _ <- run ;;
  t1 <- now ;;
  ret (t1 - t0).

(** *** The table of elapsed times *)

(** A Python dict keeps its keys in insertion order. *)
Definition dict : Type := list (string * F).

(** [d.update({k: v})]. *)
Fixpoint dict_update (d : dict) (k : string) (v : F) : dict :=
  match d with
  | [] => [(k, v)]
  | (k', v') :: d' =>
      if String.eqb k k' then (k, v) :: d' else (k', v') :: dict_update d' k v
  end.

Fixpoint dict_get (d : dict) (k : string) : option F :=
  match d with
  | [] => None
  | (k', v) :: d' => if String.eqb k k' then Some v else dict_get d' k
  end.

(** [dict(items)]. *)
Definition dict_of_items (items : list (string * F)) : dict :=
  fold_left (fun d kv => dict_update d (fst kv) (snd kv)) items [].

(** [sorted(items, key=lambda x: x[1])]: ascending and stable; an item moves
    in front of the items whose time is larger, using [<] only. *)
Fixpoint insert_by_time (x : string * F) (l : list (string * F))
  : list (string * F) :=
  match l with
  | [] => [x]
  | y :: l' => if snd y <? snd x then y :: insert_by_time x l' else x :: y :: l'
  end.

Definition sorted_by_time (items : list (string * F)) : list (string * F) :=
  fold_right insert_by_time [] items.

(** Cells 5, 8, 11 and 14 in the order they run, each adding its entry. *)
Definition comp_efficiency (N : Z) : M dict :=
  let d := [] in
  box_mueller_t <- timed (run_box_mueller N) ;;
  let d := dict_update d "Box-Mueller"%string box_mueller_t in
  accept_reject <- timed (run_acceptance_rejection N) ;;
  let d := dict_update d "Acceptance-Rejection"%string accept_reject in
  bray_marsaglia_t <- timed (run_bray_marsaglia N) ;;
  let d := dict_update d "Bray-Marsaglia"%string bray_marsaglia_t in
  beasley_springer_moro_t <- timed (run_beasley_springer_moro N) ;;
  let d := dict_update d "Beasley-Springer-Moro"%string beasley_springer_moro_t in
  ret d.

(** Cell 15. *)
Definition comp_efficiency_sorted (N : Z) : M dict :=
  d <- comp_efficiency N ;;
  ret (dict_of_items (sorted_by_time d)).

End Notebook.

Arguments Again {A}.

(** ** Exact real arithmetic *)

Module Exact.

Local Open Scope R_scope.

Definition Rltb (x y : R) : bool := if Rlt_dec x y then true else false.
Definition Rleb (x y : R) : bool := if Rle_dec x y then true else false.
Definition Reqb (x y : R) : bool := if Req_dec_T x y then true else false.

(** Truncation toward zero. *)
Definition Rtrunc (x : R) : Z :=
  if Rle_dec 0 x then Int_part x else (- Int_part (- x))%Z.

#[export] Instance exact : Arith R := {
  dec m k := IZR m / IZR (10 ^ Z.of_nat k);
  pi := PI;
  fadd := Rplus;
  fsub := Rminus;
  fmul := Rmult;
  fdiv := Rdiv;
  fopp := Ropp;
  fabs := Rabs;
  fltb := Rltb;
  fleb := Rleb;
  feqb := Reqb;
  m_sqrt := R_sqrt.sqrt;
  m_log := ln;
  m_exp := exp;
  m_cos := cos;
  m_sin := sin;
  np_log := ln;
  m_pow2 x := x * x;
  truediv2 N := Some (IZR N / 2);
  int_of x := Some (Rtrunc x)
}.

End Exact.

(** ** Python floats *)

Module Binary64.

(** The C library behind [math] and numpy: correctly rounded or not, the
    notebook's control flow is stated for any of them. *)
Record libm : Type := {
  c_log : float -> float;
  c_exp : float -> float;
  c_cos : float -> float;
  c_sin : float -> float;
  c_pow2 : float -> float;   (* pow(x, 2.0) *)
  n_log : float -> float     (* numpy's own log loop *)
}.

(** The float nearest to an integer. *)
Definition float_of_Z (m : Z) : float :=
  SF2Prim (binary_normalize prec emax m 0 false).

(** A decimal literal of at most 16 digits: numerator and power of ten are
    floats themselves, and their quotient is rounded once. *)
Definition float_dec (m : Z) (k : nat) : float :=
  (float_of_Z m / float_of_Z (10 ^ Z.of_nat k))%float.

(** [N / 2] rounds the exact quotient [N * 2^-1] once. *)
Definition float_truediv2 (N : Z) : option float :=
  match binary_normalize prec emax N (-1) false with
  | S754_infinity _ | S754_nan => None
  | q => Some (SF2Prim q)
  end.

Definition float_int_of (x : float) : option Z :=
  match Prim2SF x with
  | S754_zero _ => Some 0%Z
  | S754_finite s m e =>
      Some (cond_Zopp s
              match e with
              | Zneg p => (Zpos m / 2 ^ Zpos p)%Z
              | _ => (Zpos m * 2 ^ e)%Z
              end)
  | S754_infinity _ | S754_nan => None
  end.

(** *** The floats a generator returns

    [np.random.uniform(0, 1)] scales 53 random bits [k] by [2^-53]: its
    values are the multiples [k / 2^53] with [0 <= k < 2^53], each of them
    a float. *)
Definition uniform53 (k : Z) : float :=
  SF2Prim (binary_normalize prec emax k (-53) false).

(** The same value [v / 2^53] written out as sign, mantissa of full
    width and exponent. *)
Definition slack (q : positive) : Z := 53 - Zpos (digits2_pos q).

Definition full_width (q : positive) : positive :=
  match slack q with
  | Zpos j => Pos.iter xO q j
  | _ => q
  end.

Definition dyadic53 (v : Z) : spec_float :=
  match v with
  | Z0 => S754_zero false
  | Zpos q => S754_finite false (full_width q) (-53 - slack q)
  | Zneg q => S754_finite true (full_width q) (-53 - slack q)
  end.

(** The sign of a float that has one. *)
Definition has_sign (s : bool) (x : spec_float) : Prop :=
  match x with
  | S754_zero s' | S754_infinity s' | S754_finite s' _ _ => s' = s
  | S754_nan => True
  end.

(** Every float but nan. *)
Definition is_number (x : float) : Prop := (x =? x)%float = true.

#[export] Instance binary64 (L : libm) : Arith float := {
  dec := float_dec;
  pi := float_dec 3141592653589793 15;
  fadd := PrimFloat.add;
  fsub := PrimFloat.sub;
  fmul := PrimFloat.mul;
  fdiv := PrimFloat.div;
  fopp := PrimFloat.opp;
  fabs := PrimFloat.abs;
  fltb := PrimFloat.ltb;
  fleb := PrimFloat.leb;
  feqb := PrimFloat.eqb;
  m_sqrt := PrimFloat.sqrt;
  m_log := c_log L;
  m_exp := c_exp L;
  m_cos := c_cos L;
  m_sin := c_sin L;
  np_log := n_log L;
  m_pow2 := c_pow2 L;
  truediv2 := float_truediv2;
  int_of := float_int_of
}.

End Binary64.

(** ** Terms the facts below are stated with *)

Section LoopTerms.

Context {F : Type} `{Arith F}.

Local Open Scope py_scope.

(** A body that takes at least one draw whenever it finishes. *)
Definition consuming {A : Type} (body : @M F A) : Prop :=
  forall w r w', body w = Done (r, w') ->
    (List.length (draws w') < List.length (draws w))%nat.

(** The worlds a loop goes through while its body answers [Again]. *)
Inductive passes {A : Type} (body : @M F (pass A))
  : @world F -> @world F -> Prop :=
| passes_here : forall w, passes body w w
| passes_again : forall w w1 w2,
    body w = Done (Again, w1) -> passes body w1 w2 -> passes body w w2.

(** The acceptance test of cell 8 for the draws [U1] (through [l], its
    logarithm) and [U2]. *)
Definition ar_accepts (l U2 : F) : bool :=
  U2 <=? m_exp (lit_m0_5 * m_pow2 (- l - lit_1)).

(** Ascending order of the table's entries, as the code can test it. *)
Definition leb_time (p q : string * F) : Prop := (snd p <=? snd q) = true.

(** The variates a list of emitted pairs holds. *)
Definition variates (l : list (F * F)) : list F :=
  flat_map (fun p => [fst p; snd p]) l.

(** What cell 8 decides on one triple of draws. *)
Definition ar_verdict (t : F * F * F) : outcome (pass F) :=
  let '(U1, U2, U3) := t in
  outcome_map
    (fun l => if ar_accepts l U2
              then if U3 <=? lit_0_5 then Break (- - l) else Again
              else Again)
    (math_log U1).

(** What cell 11 decides on one pair of draws. *)
Definition polar_verdict (p : F * F) : outcome (pass (F * F)) :=
  let '(U1, U2) := p in
  let S := (U1 * U1) + (U2 * U2) in
  if S <=? lit_1 then
    outcome_bind (math_log S) (fun l =>
    outcome_bind (math_sqrt (lit_m2 * l / S)) (fun s =>
    Done (Break (U1 * s, U2 * s))))
  else Done Again.

(** The draws that make up a list of triples, and a list of pairs. *)
Definition triple_draws (ts : list (F * F * F)) : list F :=
  flat_map (fun t => [fst (fst t); snd (fst t); snd t]) ts.

Definition pair_draws (ps : list (F * F)) : list F :=
  flat_map (fun p => [fst p; snd p]) ps.

(** A run that never reads the clock. *)
Definition keeps_clock {A : Type} (run : @M F A) : Prop :=
  forall w a w', run w = Done (a, w') -> ticks w' = ticks w.

End LoopTerms.

Module ExactTerms.

Import Exact.

Local Open Scope R_scope.

(** Ascending order of the table's entries. *)
Definition by_time (p q : string * R) : Prop := snd p <= snd q.

(** A recorded run of the whole notebook for [N = 2]: one Box-Mueller
    pair, two accepted triples, one polar pair, two inverse-CDF draws, and
    the eight clock readings around the four loops. *)
Definition recorded_run : @world R :=
  {| draws := [0.5; 0.5;
               0.5; 0.5; 0.25; 0.5; 0.5; 0.25;
               0.5; 0.5;
               0.5; 0.5];
     ticks := [0; 6; 6; 45; 45; 56; 56; 59] |}.

End ExactTerms.

(** The four fixed tags, in the order the cells run. *)
Definition algorithm_names : list string :=
  ["Box-Mueller"; "Acceptance-Rejection"; "Bray-Marsaglia";
   "Beasley-Springer-Moro"]%string.

(** ** Facts that hold in any arithmetic *)

Section NotebookFacts.

Context {F : Type} `{Arith F}.

Local Open Scope py_scope.

Lemma bind_done {A B : Type} (m : @M F A) (k : A -> @M F B) w b w' :
  bind m k w = Done (b, w') ->
  exists a w1, m w = Done (a, w1) /\ k a w1 = Done (b, w').
Proof.
  unfold bind. destruct (m w) as [[a w1]| |]; try discriminate.
  intro Hk. exists a, w1. auto.
Qed.

Lemma lift_done {A : Type} (o : outcome A) (w : @world F) a w' :
  lift o w = Done (a, w') -> o = Done a /\ w' = w.
Proof.
  unfold lift. destruct o; simpl; try discriminate.
  intro Hd. injection Hd as -> ->. auto.
Qed.

Lemma while_fuel_irrelevant {A : Type} (body : @M F (pass A)) :
  consuming body ->
  forall n w f1 f2,
    (List.length (draws w) <= n)%nat ->
    (List.length (draws w) < f1)%nat -> (List.length (draws w) < f2)%nat ->
    while_fuel f1 body w = while_fuel f2 body w.
Proof.
  intros Hc n. induction n as [|n IH]; intros w f1 f2 Hn H1 H2.
  - destruct f1 as [|f1]; [lia|]. destruct f2 as [|f2]; [lia|].
    simpl. destruct (body w) as [[[a|] w']| |] eqn:Eb; try reflexivity.
    apply Hc in Eb. lia.
  - destruct f1 as [|f1]; [lia|]. destruct f2 as [|f2]; [lia|].
    simpl. destruct (body w) as [[[a|] w']| |] eqn:Eb; try reflexivity.
    apply Hc in Eb. apply IH; lia.
Qed.

(** One turn of a [while True:] loop. *)
Lemma while_true_unroll {A : Type} (body : @M F (pass A)) (w : @world F) :
  consuming body ->
  while_true body w =
  match body w with
  | Done (Break a, w') => Done (a, w')
  | Done (Again, w') => while_true body w'
  | Raised e => Raised e
  | Starved => Starved
  end.
Proof.
  intro Hc. unfold while_true at 1. simpl.
  destruct (body w) as [[[a|] w']| |] eqn:Eb; try reflexivity.
  unfold while_true. pose proof (Hc _ _ _ Eb) as Hlt.
  apply while_fuel_irrelevant with (n := List.length (draws w')); auto; lia.
Qed.

(** A loop that returns does so from the pass that answered [Break]. *)
Lemma while_fuel_done {A : Type} (body : @M F (pass A)) fuel w a w' :
  while_fuel fuel body w = Done (a, w') ->
  exists w0, passes body w w0 /\ body w0 = Done (Break a, w').
Proof.
  revert w. induction fuel as [|fuel IH]; intros w; simpl; [discriminate|].
  destruct (body w) as [[[b|] w1]| |] eqn:Eb; try discriminate.
  - intro Hd. injection Hd as -> ->. exists w. split; [constructor | exact Eb].
  - intro Hd. destruct (IH _ Hd) as (w0 & Hp & Hb).
    exists w0. split; [econstructor; eauto | exact Hb].
Qed.

Lemma while_true_done {A : Type} (body : @M F (pass A)) w a w' :
  while_true body w = Done (a, w') ->
  exists w0, passes body w w0 /\ body w0 = Done (Break a, w').
Proof. apply while_fuel_done. Qed.

(** Conversely the loop returns as soon as a pass breaks: the trace that
    reaches such a pass is long enough. *)
Lemma while_true_reaches {A : Type} (body : @M F (pass A)) w w0 a w' :
  consuming body ->
  passes body w w0 -> body w0 = Done (Break a, w') ->
  while_true body w = Done (a, w').
Proof.
  intros Hc Hp Hb. induction Hp as [w|w w1 w2 Hstep Hp IH].
  - rewrite while_true_unroll by assumption. now rewrite Hb.
  - rewrite while_true_unroll by assumption. rewrite Hstep. auto.
Qed.

(** The trace a loop leaves is a suffix of the one it was given. *)
Lemma passes_suffix {A : Type} (body : @M F (pass A)) (k : nat) :
  (forall w r w', body w = Done (r, w') ->
     exists taken, List.length taken = k /\ draws w = taken ++ draws w'
                   /\ ticks w' = ticks w) ->
  forall w w0, passes body w w0 ->
    exists skipped, draws w = skipped ++ draws w0 /\ ticks w0 = ticks w.
Proof.
  intros Hb w w0 Hp. induction Hp as [w|w w1 w2 Hstep Hp IH].
  - exists []. auto.
  - destruct (Hb _ _ _ Hstep) as (t & _ & Ht & Hk).
    destruct IH as (s & Hs & Hk').
    exists (t ++ s). rewrite <- app_assoc, <- Hs. split; congruence.
Qed.

(** A [for] loop over [range(n)] runs its body [n] times. *)
Lemma for_range_length {A : Type} (body : @M F A) n w l w' :
  for_range n body w = Done (l, w') -> List.length l = n.
Proof.
  revert w l w'. induction n as [|n IH]; intros w l w'; simpl.
  - unfold ret. intro Hd. injection Hd as <- _. reflexivity.
  - intro Hd. apply bind_done in Hd. destruct Hd as (a & w1 & _ & Hd).
    apply bind_done in Hd. destruct Hd as (l1 & w2 & Hl & Hd).
    unfold ret in Hd. injection Hd as <- _. simpl. f_equal. eauto.
Qed.

(** A body that takes exactly [k] draws makes the loop take [n * k]. *)
Lemma for_range_draws {A : Type} (body : @M F A) (k : nat) :
  (forall w a w', body w = Done (a, w') ->
     exists taken, List.length taken = k /\ draws w = taken ++ draws w') ->
  forall n w l w', for_range n body w = Done (l, w') ->
    exists taken, List.length taken = (n * k)%nat /\ draws w = taken ++ draws w'.
Proof.
  intros Hb n. induction n as [|n IH]; intros w l w'; simpl.
  - unfold ret. intro Hd. injection Hd as _ <-. exists []. auto.
  - intro Hd. apply bind_done in Hd. destruct Hd as (a & w1 & Ha & Hd).
    apply bind_done in Hd. destruct Hd as (l1 & w2 & Hl & Hd).
    unfold ret in Hd. injection Hd as _ <-.
    destruct (Hb _ _ _ Ha) as (t1 & Ht1 & E1).
    destruct (IH _ _ _ Hl) as (t2 & Ht2 & E2).
    exists (t1 ++ t2). rewrite length_app, <- app_assoc, <- E2. split; [lia | exact E1].
Qed.

(** *** One pass of each generator *)

Lemma box_mueller_eq (U1 U2 : F) (ds tk : list F) :
  box_mueller {| draws := U1 :: U2 :: ds; ticks := tk |} =
  match math_sqrt (lit_m2 * np_log U1) with
  | Done c =>
      Done ((c * m_cos ((lit_2 * pi) * U2), c * m_sin ((lit_2 * pi) * U2)),
            {| draws := ds; ticks := tk |})
  | Raised e => Raised e
  | Starved => Starved
  end.
Proof.
  unfold box_mueller, bind, lift; simpl.
  destruct (math_sqrt (lit_m2 * np_log U1)); reflexivity.
Qed.

Lemma box_mueller_takes_two (w : @world F) p w' :
  box_mueller w = Done (p, w') ->
  exists taken, List.length taken = 2%nat /\ draws w = taken ++ draws w'.
Proof.
  destruct w as [[|U1 [|U2 ds]] tk]; try discriminate.
  rewrite box_mueller_eq.
  destruct (math_sqrt _); try discriminate.
  intro Hd. injection Hd as _ <-. exists [U1; U2]. auto.
Qed.

Lemma beasley_springer_moro_eq (U : F) (ds tk : list F) :
  beasley_springer_moro {| draws := U :: ds; ticks := tk |} =
  outcome_map (fun x => (x, {| draws := ds; ticks := tk |})) (inverse_cdf U).
Proof. reflexivity. Qed.

Lemma beasley_springer_moro_takes_one (w : @world F) x w' :
  beasley_springer_moro w = Done (x, w') ->
  exists taken, List.length taken = 1%nat /\ draws w = taken ++ draws w'.
Proof.
  destruct w as [[|U ds] tk]; try discriminate.
  rewrite beasley_springer_moro_eq.
  destruct (inverse_cdf U); try discriminate.
  intro Hd. injection Hd as _ <-. exists [U]. auto.
Qed.

Lemma ar_pass_eq (U1 U2 U3 : F) (ds tk : list F) :
  ar_pass {| draws := U1 :: U2 :: U3 :: ds; ticks := tk |} =
  match math_log U1 with
  | Done l =>
      Done (if ar_accepts l U2
            then if U3 <=? lit_0_5 then Break (- - l) else Again
            else Again,
            {| draws := ds; ticks := tk |})
  | Raised e => Raised e
  | Starved => Starved
  end.
Proof.
  unfold ar_pass, ar_accepts, bind, lift; simpl.
  destruct (math_log U1); simpl; try reflexivity.
  destruct (_ <=? _); [destruct (U3 <=? _)|]; reflexivity.
Qed.

Lemma ar_pass_done (w : @world F) r w' :
  ar_pass w = Done (r, w') ->
  exists U1 U2 U3 l,
    draws w = U1 :: U2 :: U3 :: draws w' /\ ticks w' = ticks w /\
    math_log U1 = Done l /\
    r = if ar_accepts l U2
        then if U3 <=? lit_0_5 then Break (- - l) else Again
        else Again.
Proof.
  destruct w as [[|U1 [|U2 [|U3 ds]]] tk]; try discriminate.
  rewrite ar_pass_eq. destruct (math_log U1) as [l| |] eqn:El; try discriminate.
  intro Hd. injection Hd as <- <-. exists U1, U2, U3, l. simpl. auto 10.
Qed.

Lemma ar_pass_consuming : consuming ar_pass.
Proof.
  intros w r w' Hd. apply ar_pass_done in Hd.
  destruct Hd as (U1 & U2 & U3 & l & -> & _). simpl. lia.
Qed.

(** Whatever cell 8 emits comes from a triple that passed the acceptance
    test and whose third draw was at most one half; the value is the
    negated [X], and the draws before the triple were all used by earlier
    passes. *)
Lemma acceptance_rejection_emits (w : @world F) x w' :
  acceptance_rejection w = Done (x, w') ->
  exists skipped U1 U2 U3 l,
    draws w = skipped ++ U1 :: U2 :: U3 :: draws w' /\
    math_log U1 = Done l /\ x = - - l /\
    ar_accepts l U2 = true /\ (U3 <=? lit_0_5) = true.
Proof.
  intro Hd. apply while_true_done in Hd. destruct Hd as (w0 & Hp & Hb).
  apply passes_suffix with (k := 3%nat) in Hp.
  - destruct Hp as (skipped & Hs & _).
    apply ar_pass_done in Hb.
    destruct Hb as (U1 & U2 & U3 & l & Hw0 & _ & Hl & Hr).
    exists skipped, U1, U2, U3, l. rewrite Hs, Hw0.
    destruct (ar_accepts l U2); [destruct (U3 <=? lit_0_5)|]; try discriminate.
    injection Hr as ->. auto.
  - intros w1 r w2 Hd. apply ar_pass_done in Hd.
    destruct Hd as (U1 & U2 & U3 & l & Hw & Hk & _).
    exists [U1; U2; U3]. auto.
Qed.

(** A triple whose third draw exceeds one half sends the loop back to the
    draws, whether or not it passed the acceptance test. *)
Lemma ar_pass_large_U3 (U1 U2 U3 l : F) (ds tk : list F) :
  math_log U1 = Done l -> (U3 <=? lit_0_5) = false ->
  ar_pass {| draws := U1 :: U2 :: U3 :: ds; ticks := tk |}
  = Done (Again, {| draws := ds; ticks := tk |}).
Proof.
  intros Hl H3. rewrite ar_pass_eq, Hl, H3. now destruct (ar_accepts l U2).
Qed.

Lemma polar_pass_eq (U1 U2 : F) (ds tk : list F) :
  let S := (U1 * U1) + (U2 * U2) in
  polar_pass {| draws := U1 :: U2 :: ds; ticks := tk |} =
  if S <=? lit_1 then
    match math_log S with
    | Done l =>
        match math_sqrt (lit_m2 * l / S) with
        | Done s =>
            Done (Break (U1 * s, U2 * s), {| draws := ds; ticks := tk |})
        | Raised e => Raised e
        | Starved => Starved
        end
    | Raised e => Raised e
    | Starved => Starved
    end
  else Done (Again, {| draws := ds; ticks := tk |}).
Proof.
  unfold polar_pass, bind, lift; simpl.
  destruct (_ <=? lit_1); [|reflexivity].
  destruct (math_log _) as [l| |]; simpl; try reflexivity.
  destruct (math_sqrt _); reflexivity.
Qed.

Lemma polar_pass_done (w : @world F) r w' :
  polar_pass w = Done (r, w') ->
  exists U1 U2,
    draws w = U1 :: U2 :: draws w' /\ ticks w' = ticks w /\
    let S := (U1 * U1) + (U2 * U2) in
    match r with
    | Again => (S <=? lit_1) = false
    | Break (X, Y) =>
        (S <=? lit_1) = true /\
        exists l s, math_log S = Done l /\ math_sqrt (lit_m2 * l / S) = Done s /\
                    X = U1 * s /\ Y = U2 * s
    end.
Proof.
  destruct w as [[|U1 [|U2 ds]] tk]; try discriminate.
  rewrite polar_pass_eq. cbv zeta.
  destruct (_ <=? lit_1) eqn:ES.
  - destruct (math_log _) as [l| |] eqn:El; try discriminate.
    destruct (math_sqrt _) as [s| |] eqn:Es; try discriminate.
    intro Hd. injection Hd as <- <-. exists U1, U2. simpl.
    rewrite ES. repeat split. exists l, s. auto.
  - intro Hd. injection Hd as <- <-. exists U1, U2. simpl. auto.
Qed.

Lemma polar_pass_consuming : consuming polar_pass.
Proof.
  intros w r w' Hd. apply polar_pass_done in Hd.
  destruct Hd as (U1 & U2 & -> & _). simpl. lia.
Qed.

(** One turn of each rejection loop on the draws it starts with. *)
Lemma acceptance_rejection_unroll (U1 U2 U3 : F) (ds tk : list F) :
  acceptance_rejection {| draws := U1 :: U2 :: U3 :: ds; ticks := tk |} =
  match math_log U1 with
  | Done l =>
      if ar_accepts l U2
      then if U3 <=? lit_0_5
           then Done (- - l, {| draws := ds; ticks := tk |})
           else acceptance_rejection {| draws := ds; ticks := tk |}
      else acceptance_rejection {| draws := ds; ticks := tk |}
  | Raised e => Raised e
  | Starved => Starved
  end.
Proof.
  unfold acceptance_rejection.
  rewrite while_true_unroll by exact ar_pass_consuming.
  rewrite ar_pass_eq. destruct (math_log U1) as [l| |]; try reflexivity.
  destruct (ar_accepts l U2); [destruct (U3 <=? lit_0_5)|]; reflexivity.
Qed.

Lemma bray_marsaglia_unroll (U1 U2 : F) (ds tk : list F) :
  let S := (U1 * U1) + (U2 * U2) in
  bray_marsaglia {| draws := U1 :: U2 :: ds; ticks := tk |} =
  if S <=? lit_1 then
    match math_log S with
    | Done l =>
        match math_sqrt (lit_m2 * l / S) with
        | Done s => Done ((U1 * s, U2 * s), {| draws := ds; ticks := tk |})
        | Raised e => Raised e
        | Starved => Starved
        end
    | Raised e => Raised e
    | Starved => Starved
    end
  else bray_marsaglia {| draws := ds; ticks := tk |}.
Proof.
  cbv zeta. unfold bray_marsaglia.
  rewrite while_true_unroll by exact polar_pass_consuming.
  rewrite polar_pass_eq. cbv zeta.
  destruct (_ <=? lit_1); [|reflexivity].
  destruct (math_log _) as [l| |]; try reflexivity.
  destruct (math_sqrt _); reflexivity.
Qed.

(** A pair outside the unit disc is dropped and the loop draws again. *)
Lemma bray_marsaglia_rejects (U1 U2 : F) (ds tk : list F) :
  ((U1 * U1) + (U2 * U2) <=? lit_1) = false ->
  bray_marsaglia {| draws := U1 :: U2 :: ds; ticks := tk |}
  = bray_marsaglia {| draws := ds; ticks := tk |}.
Proof.
  intro HS. pose proof (bray_marsaglia_unroll U1 U2 ds tk) as Hu.
  cbv zeta in Hu. now rewrite HS in Hu.
Qed.

(** Every pair cell 11 emits was drawn with [S <= 1] and with a logarithm
    that did not raise. *)
Lemma bray_marsaglia_emits (w : @world F) X Y w' :
  bray_marsaglia w = Done ((X, Y), w') ->
  exists skipped U1 U2 l s,
    draws w = skipped ++ U1 :: U2 :: draws w' /\
    let S := (U1 * U1) + (U2 * U2) in
    (S <=? lit_1) = true /\ math_log S = Done l /\
    math_sqrt (lit_m2 * l / S) = Done s /\ X = U1 * s /\ Y = U2 * s.
Proof.
  intro Hd. apply while_true_done in Hd. destruct Hd as (w0 & Hp & Hb).
  apply passes_suffix with (k := 2%nat) in Hp.
  - destruct Hp as (skipped & Hs & _).
    apply polar_pass_done in Hb.
    destruct Hb as (U1 & U2 & Hw0 & _ & HS & l & s & Hl & Hq & HX & HY).
    exists skipped, U1, U2, l, s. rewrite Hs, Hw0. cbv zeta. auto 10.
  - intros w1 r w2 Hd1. apply polar_pass_done in Hd1.
    destruct Hd1 as (U1 & U2 & Hw & Hk & _).
    exists [U1; U2]. auto.
Qed.

(** *** The loop bounds *)

(** Once [int(N / 2)] is known, so is the number of passes of each of the
    four timed loops that runs to its end. *)
Lemma run_lengths (N n : Z) :
  int_half N = Done n ->
  (forall (w : @world F) l w',
      run_box_mueller N w = Done (l, w') -> List.length l = Z.to_nat n) /\
  (forall (w : @world F) l w',
      run_bray_marsaglia N w = Done (l, w') -> List.length l = Z.to_nat n) /\
  (forall (w : @world F) l w',
      run_beasley_springer_moro N w = Done (l, w') ->
      List.length l = Z.to_nat N) /\
  (forall (w : @world F) l w',
      run_acceptance_rejection N w = Done (l, w') ->
      List.length l = Z.to_nat N).
Proof.
  intro Hn. unfold run_box_mueller, run_bray_marsaglia,
    run_beasley_springer_moro, run_acceptance_rejection.
  rewrite Hn. repeat split; intros w l w' Hd;
    solve [ eapply for_range_length; eauto
          | apply bind_done in Hd; destruct Hd as (k & w1 & Hk & Hd);
            apply lift_done in Hk; destruct Hk as [Hk _];
            injection Hk as <-; eapply for_range_length; eauto ].
Qed.

(** What the loops of one draw and of two draws per pass take from the
    recorded draws when they run to their end. *)
Lemma run_draws (N n : Z) :
  int_half N = Done n ->
  (forall (w : @world F) l w',
      run_box_mueller N w = Done (l, w') ->
      exists taken, List.length taken = (Z.to_nat n * 2)%nat /\
                    draws w = taken ++ draws w') /\
  (forall (w : @world F) l w',
      run_beasley_springer_moro N w = Done (l, w') ->
      exists taken, List.length taken = (Z.to_nat N * 1)%nat /\
                    draws w = taken ++ draws w').
Proof.
  intro Hn. unfold run_box_mueller, run_beasley_springer_moro.
  rewrite Hn. split; intros w l w' Hd.
  - apply bind_done in Hd. destruct Hd as (k & w1 & Hk & Hd).
    apply lift_done in Hk. destruct Hk as [Hk ->]. injection Hk as <-.
    eapply for_range_draws; [exact box_mueller_takes_two | exact Hd].
  - eapply for_range_draws; [exact beasley_springer_moro_takes_one | exact Hd].
Qed.

(** *** Sorting the items and rebuilding the dict *)

Lemma bind_run {A B : Type} (m : @M F A) (k : A -> @M F B) w a w' :
  m w = Done (a, w') -> bind m k w = k a w'.
Proof. intro Hm. unfold bind. now rewrite Hm. Qed.

Lemma insert_by_time_perm (x : string * F) (l : list (string * F)) :
  Permutation (insert_by_time x l) (x :: l).
Proof.
  induction l as [|y l IH]; simpl; [apply Permutation_refl|].
  destruct (snd y <? snd x).
  - eapply Permutation_trans; [apply perm_skip, IH | apply perm_swap].
  - apply Permutation_refl.
Qed.

Lemma sorted_by_time_perm (l : list (string * F)) :
  Permutation (sorted_by_time l) l.
Proof.
  induction l as [|x l IH]; simpl; [constructor|].
  eapply Permutation_trans; [apply insert_by_time_perm | now apply perm_skip].
Qed.

Lemma dict_update_fresh (d : @dict F) (k : string) (v : F) :
  ~ In k (map fst d) -> dict_update d k v = d ++ [(k, v)].
Proof.
  induction d as [|[k' v'] d IH]; simpl; intro Hn; [reflexivity|].
  destruct (String.eqb k k') eqn:Ek.
  - apply String.eqb_eq in Ek. subst k'. tauto.
  - f_equal. apply IH. tauto.
Qed.

Lemma fold_dict_update_nodup (l acc : list (string * F)) :
  NoDup (map fst (acc ++ l)) ->
  fold_left (fun d kv => dict_update d (fst kv) (snd kv)) l acc = acc ++ l.
Proof.
  revert acc. induction l as [|[k v] l IH]; intros acc Hnd; simpl.
  - now rewrite app_nil_r.
  - rewrite dict_update_fresh.
    + rewrite IH; rewrite <- app_assoc; [reflexivity | exact Hnd].
    + rewrite map_app in Hnd. simpl in Hnd.
      apply NoDup_remove_2 in Hnd. intro Hin. apply Hnd.
      apply in_or_app. now left.
Qed.

(** [dict(items)] keeps a list of items with distinct keys as it is. *)
Lemma dict_of_items_nodup (l : list (string * F)) :
  NoDup (map fst l) -> dict_of_items l = l.
Proof. intro Hnd. unfold dict_of_items. now rewrite fold_dict_update_nodup. Qed.

Lemma dict_get_in (d : @dict F) (k : string) (v : F) :
  NoDup (map fst d) -> (dict_get d k = Some v <-> In (k, v) d).
Proof.
  induction d as [|[k' v'] d IH]; simpl; intro Hnd.
  - split; [discriminate | tauto].
  - inversion Hnd as [|? ? Hnotin Hnd']; subst.
    destruct (String.eqb k k') eqn:Ek.
    + apply String.eqb_eq in Ek. subst k'. split.
      * intro Hs. injection Hs as ->. now left.
      * intros [He|Hin]; [now injection He as -> |].
        exfalso. apply Hnotin. change k with (fst (k, v)). now apply in_map.
    + apply String.eqb_neq in Ek. rewrite (IH Hnd'). split; [tauto|].
      intros [He|Hin]; [injection He as -> _; congruence | exact Hin].
Qed.

(** Reordering the items of a dict changes no value. *)
Lemma dict_get_perm (d d' : @dict F) (k : string) :
  NoDup (map fst d) -> Permutation d d' -> dict_get d k = dict_get d' k.
Proof.
  intros Hnd Hp.
  assert (Hnd' : NoDup (map fst d')).
  { eapply Permutation_NoDup; [apply Permutation_map, Hp | exact Hnd]. }
  destruct (dict_get d k) as [v|] eqn:E1.
  - symmetry. apply (dict_get_in _ _ _ Hnd'). apply (Permutation_in _ Hp).
    now apply (dict_get_in _ _ _ Hnd).
  - destruct (dict_get d' k) as [v|] eqn:E2; [|reflexivity].
    apply (dict_get_in _ _ _ Hnd') in E2.
    apply (Permutation_in _ (Permutation_sym Hp)) in E2.
    apply (dict_get_in _ _ _ Hnd) in E2. congruence.
Qed.

(** Insertion keeps the items ascending wherever [<] and [<=] order the
    times; they need not be transitive for that. *)
Section SortedByTime.

(** The values the order is total on (all of them but nan). *)
Variable number : F -> Prop.
Hypothesis ltb_leb : forall x y : F, (y <? x) = true -> (y <=? x) = true.
Hypothesis not_ltb_leb :
  forall x y : F, number x -> number y -> (y <? x) = false -> (x <=? y) = true.

Lemma insert_by_time_HdRel_leb (y x : string * F) (l : list (string * F)) :
  HdRel leb_time y l -> leb_time y x -> HdRel leb_time y (insert_by_time x l).
Proof.
  intros Hh Hyx. destruct l as [|z l]; simpl; [now constructor|].
  destruct (snd z <? snd x); constructor; [now inversion Hh | exact Hyx].
Qed.

Lemma insert_by_time_sorted_leb (x : string * F) (l : list (string * F)) :
  number (snd x) -> Forall (fun kv => number (snd kv)) l ->
  Sorted leb_time l -> Sorted leb_time (insert_by_time x l).
Proof.
  intros Hx. induction l as [|y l IH]; simpl; intros Hn Hs.
  - repeat constructor.
  - inversion Hs as [|? ? Hs' Hh]; subst.
    inversion Hn as [|? ? Hy Hn']; subst.
    destruct (snd y <? snd x) eqn:E.
    + constructor; [now apply IH|].
      apply insert_by_time_HdRel_leb; [exact Hh | now apply ltb_leb].
    + constructor; [exact Hs|]. constructor. now apply not_ltb_leb.
Qed.

Lemma sorted_by_time_sorted_leb (l : list (string * F)) :
  Forall (fun kv => number (snd kv)) l -> Sorted leb_time (sorted_by_time l).
Proof.
  induction l as [|x l IH]; simpl; intro Hn; [constructor|].
  inversion Hn as [|? ? Hx Hn']; subst.
  apply insert_by_time_sorted_leb; auto.
  eapply Permutation_Forall; [apply Permutation_sym, sorted_by_time_perm | exact Hn'].
Qed.

End SortedByTime.

Lemma variates_length (l : list (F * F)) :
  List.length (variates l) = (2 * List.length l)%nat.
Proof.
  unfold variates. induction l as [|p l IH]; simpl; [reflexivity | lia].
Qed.

(** *** The table *)

(** A timed run that leaves the clock alone costs two readings. *)
Lemma timed_run {A : Type} (run : @M F A) (d d' ts : list F) (t0 t1 : F) (a : A) :
  run {| draws := d; ticks := t1 :: ts |}
    = Done (a, {| draws := d'; ticks := t1 :: ts |}) ->
  timed run {| draws := d; ticks := t0 :: t1 :: ts |}
    = Done (t1 - t0, {| draws := d'; ticks := ts |}).
Proof.
  intro Hr. unfold timed, bind, now, ret. simpl. rewrite Hr. reflexivity.
Qed.

Lemma timed_done {A : Type} (run : @M F A) (w : @world F) t w' :
  timed run w = Done (t, w') ->
  exists t0 t1, t = t1 - t0.
Proof.
  unfold timed. intro Hd.
  apply bind_done in Hd. destruct Hd as (t0 & w1 & _ & Hd).
  apply bind_done in Hd. destruct Hd as (a & w2 & _ & Hd).
  apply bind_done in Hd. destruct Hd as (t1 & w3 & _ & Hd).
  unfold ret in Hd. injection Hd as <- _. eauto.
Qed.

(** The table before sorting: one entry per algorithm, in the order the
    cells ran. *)
Lemma comp_efficiency_done (N : Z) (w : @world F) d w' :
  comp_efficiency N w = Done (d, w') ->
  exists t1 t2 t3 t4 : F,
    d = [("Box-Mueller"%string, t1); ("Acceptance-Rejection"%string, t2);
         ("Bray-Marsaglia"%string, t3); ("Beasley-Springer-Moro"%string, t4)].
Proof.
  unfold comp_efficiency. intro Hd.
  apply bind_done in Hd. destruct Hd as (t1 & w1 & _ & Hd).
  apply bind_done in Hd. destruct Hd as (t2 & w2 & _ & Hd).
  apply bind_done in Hd. destruct Hd as (t3 & w3 & _ & Hd).
  apply bind_done in Hd. destruct Hd as (t4 & w4 & _ & Hd).
  unfold ret in Hd. injection Hd as <- _.
  exists t1, t2, t3, t4. reflexivity.
Qed.
End NotebookFacts.

(** ** Facts of exact arithmetic *)

Module ExactFacts.

Import Exact ExactTerms.

Local Open Scope R_scope.

Lemma Rltb_true (x y : R) : x < y -> Rltb x y = true.
Proof. intro Hlt. unfold Rltb. destruct (Rlt_dec x y); [reflexivity | contradiction]. Qed.

Lemma Rltb_false (x y : R) : y <= x -> Rltb x y = false.
Proof. intro Hle. unfold Rltb. destruct (Rlt_dec x y); [lra | reflexivity]. Qed.

Lemma Rleb_true (x y : R) : x <= y -> Rleb x y = true.
Proof. intro Hle. unfold Rleb. destruct (Rle_dec x y); [reflexivity | contradiction]. Qed.

Lemma Rleb_false (x y : R) : y < x -> Rleb x y = false.
Proof. intro Hlt. unfold Rleb. destruct (Rle_dec x y); [lra | reflexivity]. Qed.

Lemma Rleb_le (x y : R) : Rleb x y = true -> x <= y.
Proof. unfold Rleb. destruct (Rle_dec x y); [auto | discriminate]. Qed.

Lemma Rleb_gt (x y : R) : Rleb x y = false -> y < x.
Proof. unfold Rleb. destruct (Rle_dec x y); [discriminate | lra]. Qed.

Lemma Reqb_true (x y : R) : x = y -> Reqb x y = true.
Proof. intro He. unfold Reqb. destruct (Req_dec_T x y); [reflexivity | contradiction]. Qed.

Lemma Reqb_false (x y : R) : x <> y -> Reqb x y = false.
Proof. intro Hn. unfold Reqb. destruct (Req_dec_T x y); [contradiction | reflexivity]. Qed.

(** The literals and the operations of the code, read in [R]. *)
Ltac exact_lits :=
  unfold lit_0, lit_1, lit_2, lit_m1, lit_m2, lit_0_5, lit_m0_5, lit_0_42,
    a0, a1, a2, a3, b0, b1, b2, b3, c0, c1, c2, c3, c4, c5, c6, c7, c8 in *;
  cbn [dec exact] in *;
  repeat match goal with
    | |- context [ (10 ^ Z.of_nat ?k)%Z ] =>
        let v := eval vm_compute in (10 ^ Z.of_nat k)%Z in
        change (10 ^ Z.of_nat k)%Z with v in *
    | _ : context [ (10 ^ Z.of_nat ?k)%Z ] |- _ =>
        let v := eval vm_compute in (10 ^ Z.of_nat k)%Z in
        change (10 ^ Z.of_nat k)%Z with v in *
    end.

Ltac exact_ops :=
  cbn [pi fadd fsub fmul fdiv fopp fabs fltb fleb feqb m_sqrt m_log m_exp
       m_cos m_sin np_log m_pow2 truediv2 int_of exact] in *.

Lemma lit_0_exact : lit_0 = 0.
Proof. exact_lits. lra. Qed.

Lemma lit_1_exact : lit_1 = 1.
Proof. exact_lits. lra. Qed.

Lemma lit_2_exact : lit_2 = 2.
Proof. exact_lits. lra. Qed.

Lemma lit_m1_exact : lit_m1 = -1.
Proof. exact_lits. lra. Qed.

Lemma lit_m2_exact : lit_m2 = -2.
Proof. exact_lits. lra. Qed.

Lemma lit_0_5_exact : lit_0_5 = 0.5.
Proof. exact_lits. lra. Qed.

Lemma lit_m0_5_exact : lit_m0_5 = -0.5.
Proof. exact_lits. lra. Qed.

Lemma lit_0_42_exact : lit_0_42 = 0.42.
Proof. exact_lits. lra. Qed.

Ltac exact_small_lits :=
  rewrite ?lit_0_exact, ?lit_1_exact, ?lit_2_exact, ?lit_m1_exact,
    ?lit_m2_exact, ?lit_0_5_exact, ?lit_m0_5_exact, ?lit_0_42_exact in *.

(** [math.log] and [math.sqrt] in [R]. *)
Lemma math_log_exact (x : R) : 0 < x -> math_log x = Done (ln x).
Proof.
  intro Hx. unfold math_log. exact_ops. rewrite lit_0_exact.
  now rewrite Rleb_false.
Qed.

Lemma math_log_raises (x : R) : x <= 0 -> math_log x = Raised ValueError.
Proof.
  intro Hx. unfold math_log. exact_ops. rewrite lit_0_exact.
  now rewrite Rleb_true.
Qed.

Lemma math_log_done (x l : R) : math_log x = Done l -> 0 < x /\ l = ln x.
Proof.
  destruct (Rle_dec x 0) as [Hle|Hgt].
  - rewrite math_log_raises by assumption. discriminate.
  - rewrite math_log_exact by lra. intro Hd. injection Hd as <-. split; [lra | reflexivity].
Qed.

Lemma math_sqrt_exact (x : R) : 0 <= x -> math_sqrt x = Done (R_sqrt.sqrt x).
Proof.
  intro Hx. unfold math_sqrt. exact_ops. rewrite lit_0_exact.
  now rewrite Rltb_false.
Qed.

(** The central branch. *)
Lemma bsm_denominator_exact (r : R) :
  bsm_denominator r
  = 1 + r * (-8.47351093090 + r * (23.08336743743 + r * (-21.06224101826 + r * 3.13082909833))).
Proof. unfold bsm_denominator. exact_ops. exact_lits. lra. Qed.

Lemma bsm_denominator_positive (r : R) :
  0 <= r < 0.1764 -> 0 < bsm_denominator r.
Proof.
  intros [H0 H1]. rewrite bsm_denominator_exact.
  assert (Hs : 19.36 <= 23.08336743743 + r * (-21.06224101826 + r * 3.13082909833)) by nra.
  assert (Hq : 0 <= (r - 0.2188) * (r - 0.2188)) by nra.
  nra.
Qed.

Lemma inverse_cdf_central (U : R) :
  Rabs (U - 0.5) < 0.42 ->
  inverse_cdf U =
  float_div ((U - 0.5) * bsm_numerator ((U - 0.5) * (U - 0.5)))
            (bsm_denominator ((U - 0.5) * (U - 0.5))).
Proof.
  intro Hc. unfold inverse_cdf. exact_ops. exact_small_lits.
  rewrite Rltb_true by assumption. reflexivity.
Qed.

Lemma float_div_exact (x y : R) : y <> 0 -> float_div x y = Done (x / y).
Proof.
  intro Hy. unfold float_div. exact_ops. rewrite lit_0_exact.
  now rewrite Reqb_false.
Qed.

Lemma np_sign_pos (y : R) : 0 < y -> np_sign y = 1.
Proof.
  intro Hy. unfold np_sign. exact_ops. exact_small_lits.
  now rewrite Rltb_true.
Qed.

Lemma np_sign_neg (y : R) : y < 0 -> np_sign y = -1.
Proof.
  intro Hy. unfold np_sign. exact_ops. exact_small_lits.
  rewrite Rltb_false by lra. now rewrite Rltb_true.
Qed.

Lemma inverse_cdf_symmetry_exact (U : R) :
  inverse_cdf (1 - U) = outcome_map Ropp (inverse_cdf U).
Proof.
  unfold inverse_cdf. exact_ops. exact_small_lits.
  replace (1 - U - 0.5) with (- (U - 0.5)) by lra.
  rewrite Rabs_Ropp. set (Y := U - 0.5).
  destruct (Rltb (Rabs Y) 0.42) eqn:Ec.
  - replace (- Y * - Y) with (Y * Y) by ring.
    unfold float_div. destruct (_ ==? _)%py; [reflexivity|].
    cbn [outcome_map]. apply f_equal. exact_ops. unfold Rdiv. ring.
  - assert (Hy : 0.42 <= Rabs Y).
    { unfold Rltb in Ec. destruct (Rlt_dec (Rabs Y) 0.42); [discriminate | lra]. }
    destruct (Rlt_dec 0 Y) as [Hpos|Hneg].
    + rewrite (Rltb_true Hpos). rewrite Rltb_false by lra.
      rewrite (np_sign_pos Hpos). rewrite np_sign_neg by lra.
      destruct (math_log (1 - U)) as [l| |]; try reflexivity.
      cbn [outcome_bind].
      destruct (math_log (Ropp l)) as [r| |]; try reflexivity.
      cbn [outcome_bind outcome_map]. apply f_equal. exact_ops. ring.
    + assert (HY : Y < 0).
      { destruct (Req_dec Y 0) as [E0|N0]; [|lra].
        rewrite E0, Rabs_R0 in Hy. lra. }
      rewrite (Rltb_false (x := 0) (y := Y)) by lra.
      rewrite Rltb_true by lra.
      rewrite (np_sign_neg HY). rewrite np_sign_pos by lra.
      replace (1 - (1 - U)) with U by ring.
      destruct (math_log U) as [l| |]; try reflexivity.
      cbn [outcome_bind].
      destruct (math_log (Ropp l)) as [r| |]; try reflexivity.
      cbn [outcome_bind outcome_map]. apply f_equal. exact_ops. ring.
Qed.

Lemma ln_half_bounds : -1 < ln 0.5 < -0.5.
Proof.
  replace 0.5 with (/ 2) by lra. rewrite ln_Rinv by lra.
  pose proof ln_lt_2 as Hlo.
  assert (Hhi : ln 2 < 1).
  { rewrite <- (ln_exp 1). apply ln_increasing; [lra|].
    pose proof (exp_ineq1 1 ltac:(lra)). lra. }
  lra.
Qed.

Lemma ar_accepts_half : ar_accepts (ln 0.5) 0.5 = true.
Proof.
  unfold ar_accepts. exact_ops. exact_small_lits.
  apply Rleb_true. pose proof ln_half_bounds as [Hlo Hhi].
  set (t := - ln 0.5 - 1) in *.
  assert (Ht : t * t <= 0.25) by (unfold t; nra).
  pose proof (exp_ineq1_le (-0.5 * (t * t))). lra.
Qed.

(** On (0,1) the cell never raises: the central denominator is positive,
    and in the tails both logarithms have positive arguments. *)
Lemma inverse_cdf_total (U : R) :
  0 < U < 1 -> exists x, inverse_cdf U = Done x.
Proof.
  intros [H0 H1].
  destruct (Rlt_dec (Rabs (U - 0.5)) 0.42) as [Hc|Ht].
  - rewrite inverse_cdf_central by exact Hc.
    assert (Hr : 0 <= (U - 0.5) * (U - 0.5) < 0.1764).
    { apply Rabs_def2 in Hc. destruct Hc as [Hlt Hgt].
      assert (Hp : 0 < (0.42 - (U - 0.5)) * (0.42 + (U - 0.5)))
        by (apply Rmult_lt_0_compat; lra).
      pose proof (Rle_0_sqr (U - 0.5)) as Hsq. unfold Rsqr in Hsq. lra. }
    pose proof (bsm_denominator_positive Hr) as Hd.
    rewrite float_div_exact by lra. eauto.
  - unfold inverse_cdf. exact_ops. exact_small_lits.
    rewrite Rltb_false by lra.
    set (r := if Rltb 0 (U - 0.5) then 1 - U else U).
    assert (Hr : 0 < r < 1) by (unfold r; destruct (Rltb 0 (U - 0.5)); lra).
    rewrite math_log_exact by lra. cbn [outcome_bind].
    assert (Hl : ln r < 0).
    { rewrite <- ln_1. apply ln_increasing; lra. }
    rewrite math_log_exact by lra. cbn [outcome_bind]. eauto.
Qed.

(** [int(N / 2)] in exact arithmetic. *)
Lemma Rtrunc_half (N : Z) : (0 <= N)%Z -> Rtrunc (IZR N / 2) = (N / 2)%Z.
Proof.
  intro HN. unfold Rtrunc.
  pose proof (Z.div_mod N 2 ltac:(lia)) as Hdm.
  pose proof (Z.mod_pos_bound N 2 ltac:(lia)) as Hmod.
  assert (HR : IZR N = 2 * IZR (N / 2) + IZR (N mod 2)).
  { rewrite Hdm at 1. rewrite plus_IZR, mult_IZR. reflexivity. }
  assert (H0 : 0 <= IZR (N mod 2)) by (apply IZR_le; lia).
  assert (H1 : IZR (N mod 2) <= 1) by (apply IZR_le; lia).
  assert (Hq : 0 <= IZR (N / 2)) by (apply IZR_le; apply Z.div_pos; lia).
  destruct (Rle_dec 0 (IZR N / 2)) as [Hle|Hgt]; [|exfalso; apply Hgt; lra].
  symmetry. apply Int_part_spec. lra.
Qed.

Lemma int_half_exact (N : Z) : (0 <= N)%Z -> int_half N = Done (N / 2)%Z.
Proof.
  intro HN. unfold int_half. exact_ops. now rewrite Rtrunc_half.
Qed.

(** *** Runs on recorded draws *)

Lemma ln_half_plus : ln (0.5 * 0.5 + 0.5 * 0.5) = ln 0.5.
Proof. f_equal. lra. Qed.

Lemma acceptance_rejection_half (ds tk : list R) :
  acceptance_rejection {| draws := 0.5 :: 0.5 :: 0.25 :: ds; ticks := tk |}
  = Done (- - ln 0.5, {| draws := ds; ticks := tk |}).
Proof.
  rewrite acceptance_rejection_unroll.
  rewrite math_log_exact by lra. rewrite ar_accepts_half.
  exact_ops. exact_small_lits. rewrite Rleb_true by lra. reflexivity.
Qed.

Lemma box_mueller_half (ds tk : list R) :
  exists p, box_mueller {| draws := 0.5 :: 0.5 :: ds; ticks := tk |}
            = Done (p, {| draws := ds; ticks := tk |}).
Proof.
  rewrite box_mueller_eq. rewrite math_sqrt_exact; [eauto|].
  exact_ops. exact_small_lits. pose proof ln_half_bounds. lra.
Qed.

Lemma bray_marsaglia_half (ds tk : list R) :
  exists p, bray_marsaglia {| draws := 0.5 :: 0.5 :: ds; ticks := tk |}
            = Done (p, {| draws := ds; ticks := tk |}).
Proof.
  rewrite bray_marsaglia_unroll. exact_ops. exact_small_lits.
  rewrite Rleb_true by lra. rewrite math_log_exact by lra.
  rewrite ln_half_plus. pose proof ln_half_bounds as [Hlo Hhi].
  rewrite math_sqrt_exact; [eauto|].
  exact_ops. exact_small_lits.
  apply Rmult_le_pos; [lra|]. apply Rlt_le, Rinv_0_lt_compat. lra.
Qed.

Lemma beasley_springer_moro_half (ds tk : list R) :
  exists x, beasley_springer_moro {| draws := 0.5 :: ds; ticks := tk |}
            = Done (x, {| draws := ds; ticks := tk |}).
Proof.
  rewrite beasley_springer_moro_eq.
  assert (Hc : Rabs (0.5 - 0.5) < 0.42).
  { replace (0.5 - 0.5) with 0 by lra. rewrite Rabs_R0. lra. }
  rewrite inverse_cdf_central by exact Hc.
  rewrite float_div_exact; [cbn [outcome_map]; eauto|].
  assert (Hp : 0 < bsm_denominator ((0.5 - 0.5) * (0.5 - 0.5))).
  { apply bsm_denominator_positive. lra. }
  lra.
Qed.

(** The notebook runs to its end on the recorded run. *)
Lemma recorded_run_times :
  exists d w', comp_efficiency 2 recorded_run = Done (d, w').
Proof.
  unfold comp_efficiency, recorded_run.
  destruct (box_mueller_half
              [0.5; 0.5; 0.25; 0.5; 0.5; 0.25; 0.5; 0.5; 0.5; 0.5]
              [6; 6; 45; 45; 56; 56; 59]) as (p1 & Hbm).
  destruct (bray_marsaglia_half [0.5; 0.5] [56; 56; 59]) as (p2 & Hpolar).
  destruct (beasley_springer_moro_half [0.5] [59]) as (x1 & Hb1).
  destruct (beasley_springer_moro_half [] [59]) as (x2 & Hb2).
  erewrite bind_run.
  2:{ eapply timed_run. unfold run_box_mueller.
      erewrite bind_run by (unfold lift; rewrite int_half_exact by lia; reflexivity).
      change (Z.to_nat (2 / 2)) with 1%nat. cbn [for_range].
      erewrite bind_run by exact Hbm. reflexivity. }
  erewrite bind_run.
  2:{ eapply timed_run. unfold run_acceptance_rejection.
      change (Z.to_nat 2) with 2%nat. cbn [for_range].
      erewrite bind_run by apply acceptance_rejection_half.
      erewrite bind_run.
      2:{ erewrite bind_run by apply acceptance_rejection_half. reflexivity. }
      reflexivity. }
  erewrite bind_run.
  2:{ eapply timed_run. unfold run_bray_marsaglia.
      erewrite bind_run by (unfold lift; rewrite int_half_exact by lia; reflexivity).
      change (Z.to_nat (2 / 2)) with 1%nat. cbn [for_range].
      erewrite bind_run by exact Hpolar. reflexivity. }
  erewrite bind_run.
  2:{ eapply timed_run. unfold run_beasley_springer_moro.
      change (Z.to_nat 2) with 2%nat. cbn [for_range].
      erewrite bind_run by exact Hb1.
      erewrite bind_run.
      2:{ erewrite bind_run by exact Hb2. reflexivity. }
      reflexivity. }
  unfold ret. eauto.
Qed.

Lemma recorded_run_completes :
  exists d w', comp_efficiency_sorted 2 recorded_run = Done (d, w').
Proof.
  destruct recorded_run_times as (d & w' & Hd).
  unfold comp_efficiency_sorted. erewrite bind_run by exact Hd.
  unfold ret. eauto.
Qed.

(** Insertion keeps the table ascending. *)
Lemma insert_by_time_HdRel (y x : string * R) (l : list (string * R)) :
  HdRel by_time y l -> by_time y x -> HdRel by_time y (insert_by_time x l).
Proof.
  intros Hh Hyx. destruct l as [|z l]; simpl; [now constructor|].
  destruct (Rltb (snd z) (snd x)); constructor; [now inversion Hh | exact Hyx].
Qed.

Lemma insert_by_time_sorted (x : string * R) (l : list (string * R)) :
  Sorted by_time l -> Sorted by_time (insert_by_time x l).
Proof.
  induction l as [|y l IH]; simpl; intro Hs.
  - repeat constructor.
  - inversion Hs as [|? ? Hs' Hh]; subst.
    cbn [fltb exact]. unfold Rltb.
    destruct (Rlt_dec (snd y) (snd x)) as [Hlt|Hge].
    + constructor; [now apply IH|].
      apply insert_by_time_HdRel; [exact Hh | unfold by_time; lra].
    + constructor; [exact Hs|]. constructor. unfold by_time. lra.
Qed.

Lemma sorted_by_time_sorted (l : list (string * R)) :
  Sorted by_time (sorted_by_time l).
Proof.
  induction l as [|x l IH]; simpl; [constructor|].
  now apply insert_by_time_sorted.
Qed.

End ExactFacts.

(** ** Facts of binary64 arithmetic *)

Module Binary64Facts.

Import Binary64.

Section SignSymmetry.

Local Open Scope float_scope.

(** Negation only flips the sign bit, and rounding never looks at it. *)
Lemma SFopp_involutive (x : spec_float) : SFopp (SFopp x) = x.
Proof. destruct x; simpl; now rewrite ?negb_involutive. Qed.

Lemma SFopp_round_aux (s : bool) (m e : Z) (l : location) :
  SFopp (binary_round_aux prec emax s m e l)
  = binary_round_aux prec emax (negb s) m e l.
Proof.
  unfold binary_round_aux.
  destruct (shr_fexp prec emax m e l) as [mrs e'].
  destruct (shr_fexp prec emax _ e' loc_Exact) as [mrs' e''].
  destruct (shr_m mrs'); try reflexivity.
  destruct (e'' <=? emax - prec)%Z; reflexivity.
Qed.

Lemma SFmul_opp_l (x y : spec_float) :
  SFmul prec emax (SFopp x) y = SFopp (SFmul prec emax x y).
Proof.
  destruct x as [sx|sx| |sx mx ex], y as [sy|sy| |sy my ey]; simpl;
    try reflexivity; try (now destruct sx, sy).
  rewrite SFopp_round_aux. now destruct sx, sy.
Qed.

Lemma SFmul_opp_r (x y : spec_float) :
  SFmul prec emax x (SFopp y) = SFopp (SFmul prec emax x y).
Proof.
  destruct x as [sx|sx| |sx mx ex], y as [sy|sy| |sy my ey]; simpl;
    try reflexivity; try (now destruct sx, sy).
  rewrite SFopp_round_aux. now destruct sx, sy.
Qed.

Lemma SFdiv_opp_l (x y : spec_float) :
  SFdiv prec emax (SFopp x) y = SFopp (SFdiv prec emax x y).
Proof.
  destruct x as [sx|sx| |sx mx ex], y as [sy|sy| |sy my ey]; simpl;
    try reflexivity; try (now destruct sx, sy).
  destruct (SFdiv_core_binary prec emax (Z.pos mx) ex (Z.pos my) ey) as [[mz ez] lz].
  rewrite SFopp_round_aux. now destruct sx, sy.
Qed.

Lemma opp_involutive (x : float) : - - x = x.
Proof. apply Prim2SF_inj. rewrite !opp_spec. apply SFopp_involutive. Qed.

Lemma abs_opp (x : float) : abs (- x) = abs x.
Proof.
  apply Prim2SF_inj. rewrite !abs_spec, opp_spec.
  now destruct (Prim2SF x).
Qed.

Lemma mul_opp_l (x y : float) : (- x) * y = - (x * y).
Proof.
  apply Prim2SF_inj. rewrite opp_spec, !mul_spec, opp_spec. apply SFmul_opp_l.
Qed.

Lemma mul_opp_r (x y : float) : x * (- y) = - (x * y).
Proof.
  apply Prim2SF_inj. rewrite opp_spec, !mul_spec, opp_spec. apply SFmul_opp_r.
Qed.

Lemma mul_opp_opp (x y : float) : (- x) * (- y) = x * y.
Proof. now rewrite mul_opp_l, mul_opp_r, opp_involutive. Qed.

Lemma div_opp_l (x y : float) : (- x) / y = - (x / y).
Proof.
  apply Prim2SF_inj. rewrite opp_spec, !div_spec, opp_spec. apply SFdiv_opp_l.
Qed.

Lemma Prim2SF_zero : Prim2SF 0 = S754_zero false.
Proof. reflexivity. Qed.

Lemma ltb_zero_opp (y : float) : (0 <? - y) = (y <? 0).
Proof.
  rewrite !ltb_spec, opp_spec, Prim2SF_zero.
  destruct (Prim2SF y) as [s|s| |s m e]; try reflexivity; now destruct s.
Qed.

Lemma ltb_opp_zero (y : float) : (- y <? 0) = (0 <? y).
Proof.
  rewrite !ltb_spec, opp_spec, Prim2SF_zero.
  destruct (Prim2SF y) as [s|s| |s m e]; try reflexivity; now destruct s.
Qed.

(** A float that equals itself is a zero or has a sign. *)
Lemma number_cases (y : float) :
  (y =? y) = true ->
  ((0 <? y) = true /\ (y <? 0) = false) \/
  ((y <? 0) = true /\ (0 <? y) = false) \/
  (y = 0 \/ y = -0).
Proof.
  rewrite eqb_spec, !ltb_spec, Prim2SF_zero.
  destruct (Prim2SF y) as [s|s| |s m e] eqn:Ey; simpl.
  - intros _. right. right.
    destruct s; [right|left]; apply Prim2SF_inj; rewrite Ey; reflexivity.
  - intros _. destruct s; simpl; auto.
  - discriminate.
  - intros _. destruct s; simpl; auto.
Qed.

End SignSymmetry.

Section Literals.

Local Open Scope float_scope.

#[local] Set Warnings "-inexact-float".

(** The literals of the cells are the floats Python reads them as. *)
Lemma literals_binary64 (L : libm) :
  @lit_0_5 _ (binary64 L) = 0.5 /\ @lit_0_42 _ (binary64 L) = 0.42 /\
  @lit_m0_5 _ (binary64 L) = -0.5 /\ @lit_m2 _ (binary64 L) = -2 /\
  @pi _ (binary64 L) = 0x1.921fb54442d18p+1.
Proof. repeat split; reflexivity. Qed.

Lemma constants_binary64 (L : libm) :
  let A := binary64 L in
  [@a0 _ A; @a1 _ A; @a2 _ A; @a3 _ A]
  = [2.50662823884; -18.61500062529; 41.39119773534; -25.44106049637] /\
  [@b0 _ A; @b1 _ A; @b2 _ A; @b3 _ A]
  = [-8.47351093090; 23.08336743743; -21.06224101826; 3.13082909833] /\
  [@c0 _ A; @c1 _ A; @c2 _ A; @c3 _ A; @c4 _ A; @c5 _ A; @c6 _ A; @c7 _ A;
   @c8 _ A]
  = [0.3374754822726147; 0.9761690190917186; 0.1607979714918209;
     0.0276438810333863; 0.0038405729373609; 0.0003951896511919;
     0.0000321767881768; 0.0000002888167364; 0.0000003960315187].
Proof. repeat split; reflexivity. Qed.

(** At [U = 0.95], an input of the tail branch, [1 - U] and the two
    offsets are formed without rounding. *)
Lemma offsets_exact_at_0_95 :
  (abs (0.95 - 0.5) <? 0.42) = false /\
  (1 - 0.95) - 0.5 = - (0.95 - 0.5) /\
  1 - (1 - 0.95) = 0.95.
Proof. repeat split; reflexivity. Qed.

End Literals.

Section HalfOfAnInteger.

Local Open Scope Z_scope.

(** Below [2^53] an integer is a float, and so is its half: shifting the
    mantissa to full width is all the rounding does. *)

Lemma digits2_pos_iter_xO (p k : positive) :
  Zpos (digits2_pos (Pos.iter xO p k)) = Zpos (digits2_pos p) + Zpos k.
Proof.
  induction k as [|k IH] using Pos.peano_ind.
  - simpl. lia.
  - rewrite Pos.iter_succ. simpl digits2_pos. lia.
Qed.

Lemma iter_xO_pow2 (p k : positive) :
  Zpos (Pos.iter xO p k) = Zpos p * 2 ^ Zpos k.
Proof.
  induction k as [|k IH] using Pos.peano_ind.
  - simpl. lia.
  - rewrite Pos.iter_succ, Pos2Z.inj_xO, IH, Pos2Z.inj_succ, Z.pow_succ_r by lia. ring.
Qed.

Lemma digits2_pos_lower (p : positive) :
  2 ^ (Zpos (digits2_pos p) - 1) <= Zpos p.
Proof.
  induction p as [p IH|p IH|]; simpl digits2_pos.
  - rewrite Pos2Z.inj_succ.
    replace (Z.succ (Zpos (digits2_pos p)) - 1) with (Z.succ (Zpos (digits2_pos p) - 1)) by lia.
    rewrite Z.pow_succ_r by lia. lia.
  - rewrite Pos2Z.inj_succ.
    replace (Z.succ (Zpos (digits2_pos p)) - 1) with (Z.succ (Zpos (digits2_pos p) - 1)) by lia.
    rewrite Z.pow_succ_r by lia. lia.
  - simpl. lia.
Qed.

Lemma digits2_pos_53 (p : positive) :
  Zpos p < 2 ^ 53 -> Zpos (digits2_pos p) <= 53.
Proof.
  intro Hp. pose proof (digits2_pos_lower p) as Hlo.
  destruct (Z_le_gt_dec (Zpos (digits2_pos p)) 53) as [Hle|Hgt]; [exact Hle|].
  assert (2 ^ 53 <= 2 ^ (Zpos (digits2_pos p) - 1)) by (apply Z.pow_le_mono_r; lia).
  lia.
Qed.

(** A mantissa of full width goes through the rounding unchanged. *)
Lemma binary_round_aux_full (m : positive) (e : Z) :
  Zpos (digits2_pos m) = 53 -> -1074 <= e <= 971 ->
  binary_round_aux prec emax false (Zpos m) e loc_Exact = S754_finite false m e.
Proof.
  intros Hd He. unfold binary_round_aux, shr_fexp, fexp, SpecFloat.emin, prec, emax.
  cbn [Zdigits2 shr_record_of_loc]. rewrite Hd.
  replace (Z.max (53 + e - 53) (3 - 1024 - 53) - e) with 0 by lia.
  cbn [shr shr_m loc_of_shr_record round_nearest_even Zdigits2 shr_record_of_loc].
  rewrite Hd.
  replace (Z.max (53 + e - 53) (3 - 1024 - 53) - e) with 0 by lia.
  cbn [shr shr_m].
  replace (e <=? 1024 - 53) with true by (symmetry; apply Z.leb_le; lia).
  reflexivity.
Qed.

Lemma binary_round_half (p : positive) :
  Zpos p < 2 ^ 53 ->
  exists (m : positive) (k : Z),
    0 <= k <= 52 /\ Zpos m = Zpos p * 2 ^ k /\ Zpos (digits2_pos m) = 53 /\
    binary_round prec emax false p (-1) = S754_finite false m (- 1 - k).
Proof.
  intro Hp. pose proof (digits2_pos_53 Hp) as Hd.
  assert (Hd1 : 1 <= Zpos (digits2_pos p)) by lia.
  unfold binary_round, shl_align, fexp, SpecFloat.emin.
  change prec with 53. change emax with 1024.
  replace (Z.max (Zpos (digits2_pos p) + -1 - 53) (3 - 1024 - 53))
    with (Zpos (digits2_pos p) - 54) by lia.
  destruct (Zpos (digits2_pos p) - 54 - -1) as [|q|q] eqn:Eq.
  - exists p, 0. repeat split; try lia.
    rewrite binary_round_aux_full by lia. reflexivity.
  - lia.
  - exists (Pos.iter xO p q), (Zpos q).
    assert (Hq : Zpos q = 53 - Zpos (digits2_pos p)) by lia.
    repeat split; try lia.
    + apply iter_xO_pow2.
    + rewrite digits2_pos_iter_xO. lia.
    + rewrite binary_round_aux_full.
      * f_equal. lia.
      * rewrite digits2_pos_iter_xO. lia.
      * lia.
Qed.

Lemma int_half_binary64 (L : libm) (N : Z) :
  0 <= N < 2 ^ 53 -> int_half (H := binary64 L) N = Done (N / 2).
Proof.
  intros [H0 H53]. unfold int_half. cbn [truediv2 int_of binary64].
  unfold float_truediv2, float_int_of.
  destruct N as [|p|p]; [reflexivity| |lia].
  cbn [binary_normalize].
  destruct (binary_round_half H53) as (m & k & Hk & Hm & Hd & ->).
  rewrite Prim2SF_SF2Prim.
  - destruct (-1 - k) as [|e|e] eqn:Ee; try lia.
    cbn [cond_Zopp]. apply f_equal.
    assert (He : Zpos e = k + 1) by lia.
    rewrite Hm, He, Z.pow_add_r by lia.
    change (2 ^ 1) with 2. rewrite (Z.mul_comm (2 ^ k) 2).
    rewrite Z.div_mul_cancel_r; [reflexivity|lia|].
    apply Z.pow_nonzero; lia.
  - unfold valid_binary, bounded, canonical_mantissa, fexp, SpecFloat.emin.
    change prec with 53. change emax with 1024. rewrite Hd.
    apply andb_true_intro. split; [apply Z.eqb_eq | apply Z.leb_le]; lia.
Qed.

End HalfOfAnInteger.

Section Order.

Local Open Scope float_scope.

(** Floats other than nan are totally ordered by [<] and [<=]. *)
Lemma SFcompare_antisym (x y : spec_float) :
  SFcompare y x = option_map CompOpp (SFcompare x y).
Proof.
  destruct x as [sx|sx| |sx mx ex], y as [sy|sy| |sy my ey]; simpl;
    try reflexivity; try (now destruct sx); try (now destruct sy);
    try (now destruct sx, sy).
  destruct sx, sy; simpl; try reflexivity;
    rewrite (Z.compare_antisym ex ey);
    destruct (ex ?= ey)%Z; simpl; try reflexivity;
    pose proof (Pos.compare_cont_antisym mx my Eq) as Ha; simpl in Ha;
    rewrite <- Ha; reflexivity.
Qed.

Lemma ltb_leb (x y : float) : (y <? x) = true -> (y <=? x) = true.
Proof.
  rewrite ltb_spec, leb_spec. unfold SFltb, SFleb.
  now destruct (SFcompare (Prim2SF y) (Prim2SF x)) as [[| |]|].
Qed.

Lemma not_ltb_leb (x y : float) :
  is_number x -> is_number y -> (y <? x) = false -> (x <=? y) = true.
Proof.
  unfold is_number. rewrite !eqb_spec, ltb_spec, leb_spec.
  unfold SFeqb, SFltb, SFleb.
  rewrite (SFcompare_antisym (Prim2SF x) (Prim2SF y)).
  destruct (Prim2SF x) as [sx|sx| |sx mx ex], (Prim2SF y) as [sy|sy| |sy my ey];
    simpl; try discriminate; try reflexivity; intros _ _;
    try (now destruct sx); try (now destruct sy); try (now destruct sx, sy).
  destruct sx, sy; simpl; try discriminate; try reflexivity;
    destruct (ex ?= ey)%Z; simpl; try discriminate; try reflexivity;
    now destruct (Pos.compare_cont Eq mx my).
Qed.

(** The sorted table in binary64: ascending whenever the recorded times
    are numbers. *)
Lemma comp_efficiency_sorted_binary64 (L : libm) (N : Z) (w : @world float) d w' :
  comp_efficiency_sorted (H := binary64 L) N w = Done (d, w') ->
  exists d0,
    comp_efficiency (H := binary64 L) N w = Done (d0, w') /\
    map fst d0 = algorithm_names /\
    Permutation d d0 /\
    (Forall (fun kv => is_number (snd kv)) d0 ->
     Sorted (leb_time (H := binary64 L)) d).
Proof.
  unfold comp_efficiency_sorted. intro Hd.
  apply bind_done in Hd. destruct Hd as (d0 & w1 & Hd0 & Hd).
  unfold ret in Hd. injection Hd as <- <-.
  exists d0. split; [exact Hd0|].
  apply comp_efficiency_done in Hd0. destruct Hd0 as (t1 & t2 & t3 & t4 & ->).
  set (d0 := [(_, t1); (_, t2); (_, t3); (_, t4)]).
  assert (Hk : map fst d0 = algorithm_names) by reflexivity.
  assert (Hnd : NoDup (map fst d0)).
  { rewrite Hk. unfold algorithm_names.
    repeat constructor; simpl; intuition discriminate. }
  pose proof (sorted_by_time_perm (H := binary64 L) d0) as Hp.
  assert (Hnd' : NoDup (map fst (sorted_by_time (H := binary64 L) d0))).
  { eapply Permutation_NoDup; [apply Permutation_map, Permutation_sym, Hp | exact Hnd]. }
  rewrite (dict_of_items_nodup _ Hnd').
  split; [exact Hk|]. split; [exact Hp|].
  intro Hnum.
  apply (@sorted_by_time_sorted_leb _ (binary64 L) is_number);
    [exact ltb_leb | exact not_ltb_leb | exact Hnum].
Qed.

(** What cell 8 emits in binary64: the value of the C logarithm at the
    first draw of an accepted triple. *)
Lemma acceptance_rejection_emits_binary64 (L : libm) (w : @world float) x w' :
  acceptance_rejection (H := binary64 L) w = Done (x, w') ->
  exists skipped U1 U2 U3,
    draws w = skipped ++ U1 :: U2 :: U3 :: draws w' /\
    (U1 <=? 0) = false /\ x = c_log L U1 /\
    (U2 <=? c_exp L (-0.5 * c_pow2 L (- c_log L U1 - 1))) = true /\
    (U3 <=? 0.5) = true.
Proof.
  intro Hd. apply acceptance_rejection_emits in Hd.
  destruct Hd as (skipped & U1 & U2 & U3 & l & Hw & Hl & Hx & Ha & H3).
  exists skipped, U1, U2, U3.
  unfold math_log in Hl. cbn [fleb m_log binary64] in Hl.
  change (@lit_0 _ (binary64 L)) with 0 in Hl.
  destruct (U1 <=? 0) eqn:E1; [discriminate|]. injection Hl as <-.
  cbn [fopp binary64] in Hx. rewrite opp_involutive in Hx.
  repeat split; assumption.
Qed.

End Order.

Section UniformGrid.

(** On the grid [k / 2^53] subtraction is exact: the difference of two
    grid values, when it fits in 53 bits, is a grid value again. *)

Local Open Scope Z_scope.

Lemma slack_range (q : positive) : Zpos q < 2 ^ 53 -> 0 <= slack q <= 52.
Proof.
  intro Hq. pose proof (digits2_pos_53 Hq). unfold slack. lia.
Qed.

Lemma full_width_value (q : positive) :
  Zpos q < 2 ^ 53 -> Zpos (full_width q) = Zpos q * 2 ^ slack q.
Proof.
  intro Hq. pose proof (slack_range Hq) as Hs. unfold full_width.
  destruct (slack q) as [|j|j] eqn:Ej; try lia.
  apply iter_xO_pow2.
Qed.

Lemma full_width_digits (q : positive) :
  Zpos q < 2 ^ 53 -> Zpos (digits2_pos (full_width q)) = 53.
Proof.
  intro Hq. pose proof (slack_range Hq) as Hs. unfold full_width.
  destruct (slack q) as [|j|j] eqn:Ej; unfold slack in Ej; try lia.
  rewrite digits2_pos_iter_xO. lia.
Qed.

(** The digits of a shifted mantissa. *)
Lemma digits2_pos_shift (p0 q : positive) (t : Z) :
  0 <= t -> Zpos p0 = Zpos q * 2 ^ t ->
  Zpos (digits2_pos p0) = Zpos (digits2_pos q) + t.
Proof.
  intros Ht Hp. destruct t as [|j|j]; try lia.
  - replace p0 with q by lia. lia.
  - rewrite <- iter_xO_pow2 in Hp. injection Hp as ->.
    apply digits2_pos_iter_xO.
Qed.

(** Shifting out bits that are all zero loses nothing. *)
Lemma iter_pos_shr_1_exact (p m : positive) :
  iter_pos shr_1 p
    {| shr_m := Zpos (Pos.iter xO m p); shr_r := false; shr_s := false |}
  = {| shr_m := Zpos m; shr_r := false; shr_s := false |}.
Proof.
  revert m. induction p as [p IH|p IH|]; intro m; simpl.
  - rewrite IH, IH. reflexivity.
  - rewrite IH, IH. reflexivity.
  - reflexivity.
Qed.

Lemma binary_round_aux_signed (s : bool) (m : positive) (e : Z) :
  Zpos (digits2_pos m) = 53 -> -1074 <= e <= 971 ->
  binary_round_aux prec emax s (Zpos m) e loc_Exact = S754_finite s m e.
Proof.
  intros Hd He. destruct s.
  - change true with (negb false). rewrite <- SFopp_round_aux.
    now rewrite binary_round_aux_full.
  - now apply binary_round_aux_full.
Qed.

Lemma binary_round_aux_shifted (s : bool) (m j : positive) (e : Z) :
  Zpos (digits2_pos m) = 53 -> -1074 <= e -> e + Zpos j <= 971 ->
  binary_round_aux prec emax s (Zpos (Pos.iter xO m j)) e loc_Exact
  = S754_finite s m (e + Zpos j).
Proof.
  intros Hd He Hj. unfold binary_round_aux, shr_fexp, fexp, SpecFloat.emin, prec, emax.
  cbn [Zdigits2 shr_record_of_loc]. rewrite digits2_pos_iter_xO, Hd.
  replace (Z.max (53 + Zpos j + e - 53) (3 - 1024 - 53) - e) with (Zpos j) by lia.
  cbn [shr]. rewrite iter_pos_shr_1_exact.
  cbn [shr_m loc_of_shr_record round_nearest_even Zdigits2 shr_record_of_loc].
  rewrite Hd.
  replace (Z.max (53 + (e + Zpos j) - 53) (3 - 1024 - 53) - (e + Zpos j)) with 0 by lia.
  cbn [shr shr_m].
  replace (e + Zpos j <=? 1024 - 53) with true by (symmetry; apply Z.leb_le; lia).
  reflexivity.
Qed.

(** Rounding a value [±q * 2^(e' - 53)] with [q < 2^53], however its
    mantissa was shifted, gives the float of full width for it. *)
Lemma binary_round_dyadic (s : bool) (p0 q : positive) (t : Z) :
  Zpos q < 2 ^ 53 -> 0 <= t <= 1000 -> Zpos p0 = Zpos q * 2 ^ t ->
  binary_round prec emax s p0 (-53 - t)
  = S754_finite s (full_width q) (-53 - slack q).
Proof.
  intros Hq Ht Hp. pose proof (slack_range Hq) as Hs.
  pose proof (@digits2_pos_shift p0 q t (proj1 Ht) Hp) as Hd.
  pose proof (full_width_value Hq) as Hv.
  pose proof (full_width_digits Hq) as Hfd.
  unfold binary_round, shl_align, fexp, SpecFloat.emin.
  change prec with 53. change emax with 1024. rewrite Hd.
  replace (Z.max (Zpos (digits2_pos q) + t + (-53 - t) - 53) (3 - 1024 - 53))
    with (-53 - slack q) by (unfold slack; lia).
  destruct (-53 - slack q - (-53 - t)) as [|j|j] eqn:Ej.
  - (* the mantissa already has full width *)
    assert (Et : t = slack q) by lia.
    assert (Ep : p0 = full_width q).
    { apply Pos2Z.inj. rewrite Hv, Hp, Et. reflexivity. }
    rewrite Ep, binary_round_aux_signed by lia. f_equal. lia.
  - (* too wide: the low bits, all zero, are shifted out *)
    assert (Et : t = slack q + Zpos j) by lia.
    assert (Ep : p0 = Pos.iter xO (full_width q) j).
    { apply Pos2Z.inj. rewrite iter_xO_pow2, Hv, Hp, Et, Z.pow_add_r by lia. ring. }
    rewrite Ep, binary_round_aux_shifted by lia. f_equal. lia.
  - (* too narrow: shifted up *)
    assert (Et : slack q = t + Zpos j) by lia.
    assert (Ep : Pos.iter xO p0 j = full_width q).
    { apply Pos2Z.inj. rewrite iter_xO_pow2, Hv, Hp, Et, Z.pow_add_r by lia. ring. }
    rewrite Ep, binary_round_aux_signed by lia. reflexivity.
Qed.

Lemma binary_normalize_dyadic (v : Z) (t : Z) :
  Z.abs v < 2 ^ 53 -> 0 <= t <= 1000 ->
  binary_normalize prec emax (v * 2 ^ t) (-53 - t) false = dyadic53 v.
Proof.
  intros Hv Ht. assert (Hpow : 0 < 2 ^ t) by (apply Z.pow_pos_nonneg; lia).
  destruct v as [|q|q]; [reflexivity| |].
  - destruct (Zpos q * 2 ^ t) as [|p0|p0] eqn:Ep; try lia.
    cbn [binary_normalize dyadic53]. apply binary_round_dyadic; lia.
  - destruct (Zneg q * 2 ^ t) as [|p0|p0] eqn:Ep; try lia.
    cbn [binary_normalize dyadic53]. apply binary_round_dyadic; lia.
Qed.

Lemma dyadic53_valid (v : Z) :
  Z.abs v < 2 ^ 53 -> valid_binary (dyadic53 v) = true.
Proof.
  intro Hv. destruct v as [|q|q]; [reflexivity| |];
    cbn [dyadic53 valid_binary];
    unfold bounded, canonical_mantissa, fexp, SpecFloat.emin;
    change prec with 53; change emax with 1024;
    rewrite full_width_digits by lia;
    pose proof (@slack_range q ltac:(lia));
    apply andb_true_intro; (split; [apply Z.eqb_eq | apply Z.leb_le]; lia).
Qed.

Lemma Prim2SF_uniform53 (k : Z) :
  Z.abs k < 2 ^ 53 -> Prim2SF (uniform53 k) = dyadic53 k.
Proof.
  intro Hk. unfold uniform53.
  pose proof (@binary_normalize_dyadic k 0 Hk ltac:(lia)) as Hn.
  rewrite Z.mul_1_r in Hn. change (-53 - 0) with (-53) in Hn.
  rewrite Hn. now apply Prim2SF_SF2Prim, dyadic53_valid.
Qed.


Lemma shl_align_value (mx : positive) (ex ez : Z) :
  ez <= ex -> Zpos (fst (shl_align mx ex ez)) = Zpos mx * 2 ^ (ex - ez).
Proof.
  intro Hle. unfold shl_align.
  destruct (ez - ex) as [|d|d] eqn:Ed; try lia; cbn [fst].
  - replace (ex - ez) with 0 by lia. lia.
  - rewrite iter_xO_pow2. f_equal. f_equal. lia.
Qed.

(** A difference that fits in 53 bits is formed without rounding. *)
Lemma SFsub_exact (sx sy : bool) (mx my : positive) (ex ey v : Z) :
  let ez := Z.min ex ey in
  cond_Zopp sx (Zpos mx * 2 ^ (ex - ez)) - cond_Zopp sy (Zpos my * 2 ^ (ey - ez))
  = v * 2 ^ (-53 - ez) ->
  Z.abs v < 2 ^ 53 -> -1053 <= ez <= -53 ->
  SFsub prec emax (S754_finite sx mx ex) (S754_finite sy my ey) = dyadic53 v.
Proof.
  intros ez Hv Hb He. cbn [SFsub]. fold ez.
  rewrite !shl_align_value by (unfold ez; lia). rewrite Hv.
  replace ez with (-53 - (-53 - ez)) at 2 by lia.
  apply binary_normalize_dyadic; lia.
Qed.

Lemma full_width_aligned (q : positive) (J : Z) :
  Zpos q < 2 ^ 53 -> slack q <= J ->
  Zpos (full_width q) * 2 ^ (J - slack q) = Zpos q * 2 ^ J.
Proof.
  intros Hq HJ. pose proof (slack_range Hq) as Hs.
  rewrite full_width_value by exact Hq.
  rewrite <- Z.mul_assoc, <- Z.pow_add_r by lia. f_equal. f_equal. lia.
Qed.

Lemma SFsub_dyadic (vx vy : Z) :
  Z.abs vx < 2 ^ 53 -> Z.abs vy < 2 ^ 53 -> Z.abs (vx - vy) < 2 ^ 53 ->
  SFsub prec emax (dyadic53 vx) (dyadic53 vy) = dyadic53 (vx - vy).
Proof.
  intros Hx Hy Hd.
  destruct vx as [|qx|qx], vy as [|qy|qy]; try reflexivity;
    cbn [dyadic53];
    pose proof (@slack_range qx ltac:(lia)) as Hsx;
    pose proof (@slack_range qy ltac:(lia)) as Hsy;
    (apply SFsub_exact; [|exact Hd|lia]);
    set (J := Z.max (slack qx) (slack qy));
    replace (Z.min (-53 - slack qx) (-53 - slack qy)) with (-53 - J)
      by (unfold J; lia);
    replace (-53 - slack qx - (-53 - J)) with (J - slack qx) by lia;
    replace (-53 - slack qy - (-53 - J)) with (J - slack qy) by lia;
    replace (-53 - (-53 - J)) with J by lia;
    rewrite !full_width_aligned by (unfold J; lia);
    cbn [cond_Zopp]; lia.
Qed.

Lemma Prim2SF_one : Prim2SF 1 = S754_finite false 4503599627370496 (-52).
Proof. reflexivity. Qed.

Lemma Prim2SF_half : Prim2SF 0.5 = dyadic53 (2 ^ 52).
Proof. reflexivity. Qed.

Lemma SFsub_one_dyadic (k : Z) :
  0 < k < 2 ^ 53 ->
  SFsub prec emax (Prim2SF 1) (dyadic53 k) = dyadic53 (2 ^ 53 - k).
Proof.
  intro Hk. rewrite Prim2SF_one. destruct k as [|q|q]; try lia.
  cbn [dyadic53]. pose proof (@slack_range q ltac:(lia)) as Hs.
  apply SFsub_exact; [|lia|lia].
  replace (Z.min (-52) (-53 - slack q)) with (-53 - slack q) by lia.
  replace (-52 - (-53 - slack q)) with (slack q + 1) by lia.
  replace (-53 - slack q - (-53 - slack q)) with 0 by lia.
  replace (-53 - (-53 - slack q)) with (slack q) by lia.
  rewrite full_width_value by lia.
  rewrite Z.pow_add_r by lia. cbn [cond_Zopp].
  change (2 ^ 53) with (4503599627370496 * 2 ^ 1). change (2 ^ 0) with 1. ring.
Qed.

Lemma SFopp_dyadic (v : Z) : v <> 0 -> SFopp (dyadic53 v) = dyadic53 (- v).
Proof. destruct v; [congruence|reflexivity|reflexivity]. Qed.

Lemma SFeqb_dyadic (v : Z) : SFeqb (dyadic53 v) (dyadic53 v) = true.
Proof.
  destruct v as [|q|q]; [reflexivity| |]; unfold SFeqb; cbn [dyadic53 SFcompare];
    rewrite Z.compare_refl, Pos.compare_cont_refl; reflexivity.
Qed.

End UniformGrid.

Section GridSymmetry.

Local Open Scope float_scope.

#[local] Set Warnings "-inexact-float".

(** On the grid of the generator [1 - U] and the two offsets from one
    half are formed without rounding. *)
Lemma offsets_exact_on_grid (k : Z) :
  (0 < k < 2 ^ 53)%Z -> k <> (2 ^ 52)%Z ->
  let U := uniform53 k in
  (U - 0.5 =? U - 0.5) = true /\
  (1 - U) - 0.5 = - (U - 0.5) /\
  1 - (1 - U) = U.
Proof.
  intros Hk Hne U.
  assert (HU : Prim2SF U = dyadic53 k) by (apply Prim2SF_uniform53; lia).
  assert (HY : Prim2SF (U - 0.5) = dyadic53 (k - 2 ^ 52)).
  { rewrite sub_spec, HU, Prim2SF_half. apply SFsub_dyadic; lia. }
  assert (HU' : Prim2SF (1 - U) = dyadic53 (2 ^ 53 - k)).
  { rewrite sub_spec, HU. now apply SFsub_one_dyadic. }
  split; [|split].
  - rewrite eqb_spec, HY. apply SFeqb_dyadic.
  - apply Prim2SF_inj. rewrite opp_spec, HY, sub_spec, HU', Prim2SF_half.
    rewrite SFsub_dyadic, SFopp_dyadic by lia. f_equal. lia.
  - apply Prim2SF_inj. rewrite sub_spec, HU', HU.
    rewrite SFsub_one_dyadic by lia. f_equal. lia.
Qed.

Lemma uniform53_examples :
  uniform53 1 = 0x1p-53 /\
  uniform53 (2 ^ 52) = 0.5 /\
  uniform53 6755399441055744 = 0.75 /\
  uniform53 8444249301319680 = 0.9375 /\
  uniform53 (2 ^ 53 - 1) = 0x1.fffffffffffffp-1.
Proof. repeat split; reflexivity. Qed.

End GridSymmetry.

Section Signs.

Local Open Scope Z_scope.

(** Rounding keeps the sign it was given. *)
Lemma binary_round_aux_sign (s : bool) (m e : Z) (l : location) :
  has_sign s (binary_round_aux prec emax s m e l).
Proof.
  unfold binary_round_aux.
  destruct (shr_fexp prec emax m e l) as [mrs e'].
  destruct (shr_fexp prec emax _ e' loc_Exact) as [mrs' e''].
  unfold has_sign.
  destruct (shr_m mrs'); [reflexivity| |exact I].
  destruct (_ <=? _); reflexivity.
Qed.

Lemma binary_round_sign (s : bool) (m : positive) (e : Z) :
  has_sign s (binary_round prec emax s m e).
Proof.
  unfold binary_round. destruct (shl_align _ _ _) as [mz ez].
  apply binary_round_aux_sign.
Qed.

Lemma float_int_of_opp_nonneg (f : float) :
  has_sign false (Prim2SF f) ->
  match float_int_of (- f)%float with
  | Some k => k <= 0
  | None => True
  end.
Proof.
  intro Hs. unfold float_int_of. rewrite opp_spec.
  destruct (Prim2SF f) as [s|s| |s m e]; cbn [SFopp has_sign] in *; trivial; [lia|].
  subst s. cbn [negb cond_Zopp].
  destruct e as [|p|p].
  - change (2 ^ 0) with 1. lia.
  - assert (0 < 2 ^ Zpos p) by (apply Z.pow_pos_nonneg; lia). nia.
  - assert (0 < 2 ^ Zpos p) by (apply Z.pow_pos_nonneg; lia).
    assert (0 <= Zpos m / 2 ^ Zpos p) by (apply Z.div_pos; lia). lia.
Qed.

Lemma ldexp_sign (n : PrimInt63.int) (e : Z) :
  has_sign false (Prim2SF (Z.ldexp (of_uint63 n) e)).
Proof.
  unfold Z.ldexp. rewrite ldshiftexp_spec, of_uint63_spec.
  pose proof (Uint63.to_Z_bounded n) as [Hn _].
  destruct (Uint63Axioms.to_Z n) as [|p|p] eqn:En; try lia; cbn [binary_normalize SFldexp].
  - reflexivity.
  - pose proof (binary_round_sign false p 0) as Hs.
    destruct (binary_round prec emax false p 0) as [s|s| |s m' e']; simpl in *; trivial.
    subst s. apply binary_round_sign.
Qed.

(** [int(N / 2)] of a negative integer is never positive. *)
Lemma int_half_negative (L : libm) (p : positive) :
  match int_half (H := binary64 L) (Zneg p) with
  | Done k => k <= 0
  | Raised e => e = OverflowError
  | Starved => False
  end.
Proof.
  unfold int_half. cbn [truediv2 int_of binary64].
  unfold float_truediv2. cbn [binary_normalize].
  pose proof (binary_round_sign true p (-1)) as Hs.
  destruct (binary_round prec emax true p (-1)) as [s|s| |s m e]; simpl in Hs;
    try reflexivity.
  - subst s. cbn. lia.
  - subst s. cbn [SF2Prim].
    pose proof (@float_int_of_opp_nonneg _ (ldexp_sign (Uint63Axioms.of_Z (Zpos m)) e)) as Hk.
    destruct (float_int_of _); [exact Hk | reflexivity].
Qed.

Lemma int_half_opp (L : libm) (p : positive) :
  Zpos p < 2 ^ 53 ->
  int_half (H := binary64 L) (Zneg p) = Done (- (Zpos p / 2)).
Proof.
  intro H53. unfold int_half. cbn [truediv2 int_of binary64].
  unfold float_truediv2, float_int_of. cbn [binary_normalize].
  assert (Hr : binary_round prec emax true p (-1)
               = SFopp (binary_round prec emax false p (-1))).
  { unfold binary_round. destruct (shl_align _ _ _) as [mz ez].
    now rewrite SFopp_round_aux. }
  rewrite Hr.
  destruct (binary_round_half H53) as (m & k & Hk & Hm & Hd & ->).
  cbn [SFopp negb]. rewrite Prim2SF_SF2Prim.
  - destruct (-1 - k) as [|e|e] eqn:Ee; try lia.
    cbn [cond_Zopp]. apply f_equal. apply f_equal.
    assert (He : Zpos e = k + 1) by lia.
    rewrite Hm, He, Z.pow_add_r by lia.
    change (2 ^ 1) with 2. rewrite (Z.mul_comm (2 ^ k) 2).
    rewrite Z.div_mul_cancel_r; [reflexivity|lia|].
    apply Z.pow_nonzero; lia.
  - unfold valid_binary, bounded, canonical_mantissa, fexp, SpecFloat.emin.
    change prec with 53. change emax with 1024. rewrite Hd.
    apply andb_true_intro. split; [apply Z.eqb_eq | apply Z.leb_le]; lia.
Qed.

End Signs.

Section LoopBounds.

(** The loops over pairs, once [int(N / 2)] is known. *)
Lemma pair_run_bound {A : Type} (L : libm) (N k : Z)
    (body : @M float A) (w : @world float) :
  int_half (H := binary64 L) N = Done k ->
  bind (lift (int_half (H := binary64 L) N))
       (fun n => for_range (Z.to_nat n) body) w
  = for_range (Z.to_nat k) body w.
Proof. intro Hk. unfold bind, lift. now rewrite Hk. Qed.

Lemma pair_run_empty {A : Type} (L : libm) (N k : Z)
    (body : @M float A) (w : @world float) :
  int_half (H := binary64 L) N = Done k -> (k <= 0)%Z ->
  bind (lift (int_half (H := binary64 L) N))
       (fun n => for_range (Z.to_nat n) body) w = Done ([], w).
Proof.
  intros Hk Hle. unfold bind, lift. rewrite Hk. cbn [outcome_map].
  replace (Z.to_nat k) with 0%nat by lia. reflexivity.
Qed.

Lemma pair_run_overflow {A : Type} (L : libm) (N : Z)
    (body : @M float A) (w : @world float) :
  int_half (H := binary64 L) N = Raised OverflowError ->
  bind (lift (int_half (H := binary64 L) N))
       (fun n => for_range (Z.to_nat n) body) w = Raised OverflowError.
Proof. intro Hk. unfold bind, lift. now rewrite Hk. Qed.

End LoopBounds.

End Binary64Facts.

(** * The claims of the specification *)

Import Exact ExactTerms ExactFacts Binary64 Binary64Facts.

Set Warnings "-inexact-float".

Section ExactClaims.

Local Open Scope R_scope.

(** C4. Given two uniform draws [U1], [U2] in (0,1), one pass of the
    Box-Mueller cell produces the pair
    [(sqrt(-2 ln U1) cos(2 pi U2), sqrt(-2 ln U1) sin(2 pi U2))]: two variates
    from exactly two draws (the rest of the draws is left as it was), and
    nothing else changes (the clock is untouched, nothing is raised). *)
Theorem box_mueller_pair (U1 U2 : R) (ds tk : list R) :
  0 < U1 < 1 -> 0 < U2 < 1 ->
  box_mueller {| draws := U1 :: U2 :: ds; ticks := tk |} =
  Done ((R_sqrt.sqrt (-2 * ln U1) * cos (2 * PI * U2),
         R_sqrt.sqrt (-2 * ln U1) * sin (2 * PI * U2)),
        {| draws := ds; ticks := tk |}).
Proof.
  intros [H1 H1'] _. rewrite box_mueller_eq.
  assert (Hl : ln U1 < 0).
  { rewrite <- ln_1. apply ln_increasing; lra. }
  exact_ops. exact_small_lits.
  rewrite math_sqrt_exact by lra. reflexivity.
Qed.

(** The pass on the draws 0.5 and 0.25. *)
Lemma box_mueller_pair_witness :
  0 < 0.5 < 1 /\
  box_mueller {| draws := [0.5; 0.25]; ticks := [] |} =
  Done ((R_sqrt.sqrt (-2 * ln 0.5) * cos (2 * PI * 0.25),
         R_sqrt.sqrt (-2 * ln 0.5) * sin (2 * PI * 0.25)),
        {| draws := []; ticks := [] |}).
Proof. split; [lra | apply box_mueller_pair; lra]. Defined.

(** C10. For every [U] with [|U - 0.5| < 0.42], so that
    [r = (U - 0.5)^2 < 0.1764], the denominator
    [1 + r (b0 + r (b1 + r (b2 + r b3)))] of the central branch is strictly
    positive; the division is therefore defined and the branch returns the
    quotient. *)
Theorem central_denominator_positive (U : R) :
  Rabs (U - 0.5) < 0.42 ->
  let r := (U - 0.5) * (U - 0.5) in
  r < 0.1764 /\ 0 < bsm_denominator r /\
  inverse_cdf U = Done ((U - 0.5) * bsm_numerator r / bsm_denominator r).
Proof.
  intros Hc r.
  assert (Hr : 0 <= r < 0.1764).
  { unfold r. apply Rabs_def2 in Hc. destruct Hc as [Hlt Hgt].
    assert (Hp : 0 < (0.42 - (U - 0.5)) * (0.42 + (U - 0.5)))
      by (apply Rmult_lt_0_compat; lra).
    pose proof (Rle_0_sqr (U - 0.5)) as Hsq. unfold Rsqr in Hsq. lra. }
  pose proof (bsm_denominator_positive Hr) as Hd.
  repeat split; [lra | exact Hd |].
  rewrite inverse_cdf_central by assumption.
  apply float_div_exact. fold r. lra.
Qed.

(** The denominator at [U = 0.3]. *)
Lemma central_denominator_positive_witness :
  Rabs (0.3 - 0.5) < 0.42 /\
  0 < bsm_denominator ((0.3 - 0.5) * (0.3 - 0.5)).
Proof.
  assert (Hc : Rabs (0.3 - 0.5) < 0.42).
  { unfold Rabs. destruct (Rcase_abs (0.3 - 0.5)); lra. }
  split; [exact Hc | apply (@central_denominator_positive 0.3 Hc)].
Defined.

(** C1 (the code departs from it). On the triple (0.5, 0.5, 0.75) the
    acceptance test passes, and the third draw exceeds one half: the pass
    answers [Again] instead of returning [X = -ln 0.5], and the loop only
    returns on the next triple, with the negated value. *)
Theorem acceptance_rejection_restarts_on_large_U3 (tk : list R) :
  ar_accepts (ln 0.5) 0.5 = true /\
  ar_pass {| draws := [0.5; 0.5; 0.75; 0.5; 0.5; 0.25]; ticks := tk |}
    = Done (Again, {| draws := [0.5; 0.5; 0.25]; ticks := tk |}) /\
  acceptance_rejection {| draws := [0.5; 0.5; 0.75; 0.5; 0.5; 0.25]; ticks := tk |}
    = Done (- - ln 0.5, {| draws := []; ticks := tk |}).
Proof.
  assert (Hl : math_log 0.5 = Done (ln 0.5)) by (apply math_log_exact; lra).
  assert (H3 : (0.75 <=? lit_0_5)%py = false).
  { exact_ops. exact_small_lits. apply Rleb_false. lra. }
  assert (H3' : (0.25 <=? lit_0_5)%py = true).
  { exact_ops. exact_small_lits. apply Rleb_true. lra. }
  split; [exact ar_accepts_half|]. split.
  - now apply ar_pass_large_U3 with (l := ln 0.5).
  - rewrite acceptance_rejection_unroll, Hl, ar_accepts_half, H3.
    rewrite acceptance_rejection_unroll, Hl, ar_accepts_half, H3'.
    reflexivity.
Qed.

(** C8. Every variate [x] the acceptance-rejection cell emits comes from a
    triple [(U1, U2, U3)], the last one taken from the draws, whose [U2]
    satisfies [U2 <= exp(-0.5 (|x| - 1)^2)]: nothing is emitted from a pass
    whose acceptance test failed. *)
Theorem emitted_variate_passed_acceptance (w : @world R) (x : R) (w' : @world R) :
  acceptance_rejection w = Done (x, w') ->
  exists skipped U1 U2 U3,
    draws w = skipped ++ U1 :: U2 :: U3 :: draws w' /\
    x = - - ln U1 /\
    U2 <= exp (-0.5 * (Rabs x - 1) ^ 2).
Proof.
  intro Hd. apply acceptance_rejection_emits in Hd.
  destruct Hd as (skipped & U1 & U2 & U3 & l & Hw & Hl & Hx & Ha & _).
  apply math_log_done in Hl. destruct Hl as [HU1 ->].
  exists skipped, U1, U2, U3. repeat split; try assumption.
  unfold ar_accepts in Ha. exact_ops. exact_small_lits.
  apply Rleb_le in Ha. eapply Rle_trans; [exact Ha|].
  assert (Hm : -0.5 * ((- ln U1 - 1) * (- ln U1 - 1))
               <= -0.5 * (Rabs x - 1) ^ 2).
  { subst x. rewrite Ropp_involutive.
    unfold Rabs. destruct (Rcase_abs (ln U1)); nra. }
  destruct Hm as [Hlt|Heq].
  - left. now apply exp_increasing.
  - right. now rewrite Heq.
Qed.

(** The run on the accepted triple (0.5, 0.5, 0.25). *)
Lemma emitted_variate_passed_acceptance_witness :
  exists skipped U1 U2 U3,
    [0.5; 0.5; 0.25] = skipped ++ [U1; U2; U3] /\
    - - ln 0.5 = - - ln U1 /\
    U2 <= exp (-0.5 * (Rabs (- - ln 0.5) - 1) ^ 2).
Proof.
  exact (@emitted_variate_passed_acceptance _ _ _ (acceptance_rejection_half [] [])).
Defined.

(** C9. Every variate the acceptance-rejection cell emits is the negation
    of [X = -ln U1] for the first draw [U1 > 0] of its triple: it is
    non-positive when [U1 <= 1] and strictly negative when [U1 < 1]. *)
Theorem emitted_variate_nonpositive (w : @world R) (x : R) (w' : @world R) :
  acceptance_rejection w = Done (x, w') ->
  exists skipped U1 U2 U3,
    draws w = skipped ++ U1 :: U2 :: U3 :: draws w' /\
    0 < U1 /\ x = - (- ln U1) /\
    (U1 <= 1 -> x <= 0) /\ (U1 < 1 -> x < 0).
Proof.
  intro Hd. apply acceptance_rejection_emits in Hd.
  destruct Hd as (skipped & U1 & U2 & U3 & l & Hw & Hl & Hx & _ & _).
  apply math_log_done in Hl. destruct Hl as [HU1 ->].
  exists skipped, U1, U2, U3. exact_ops.
  repeat split; try assumption; intro Hle; subst x; rewrite Ropp_involutive.
  - destruct Hle as [Hlt|Heq].
    + left. rewrite <- ln_1. apply ln_increasing; lra.
    + right. rewrite Heq. apply ln_1.
  - rewrite <- ln_1. apply ln_increasing; lra.
Qed.

(** The run on the accepted triple (0.5, 0.5, 0.25). *)
Lemma emitted_variate_nonpositive_witness :
  exists skipped U1 U2 U3,
    [0.5; 0.5; 0.25] = skipped ++ [U1; U2; U3] /\
    0 < U1 /\ - - ln 0.5 = - (- ln U1) /\
    (U1 <= 1 -> - - ln 0.5 <= 0) /\ (U1 < 1 -> - - ln 0.5 < 0).
Proof.
  exact (@emitted_variate_nonpositive _ _ _ (acceptance_rejection_half [] [])).
Defined.

(** C6. When the four timed loops have run, the sorted table has exactly
    four entries, one per algorithm name; its entries are in ascending order
    of elapsed time; and it holds the same (name, time) entries as the table
    before sorting, so every name still maps to the time recorded for it. *)
Theorem comp_efficiency_sorted_table (N : Z) (w : @world R) d w' :
  comp_efficiency_sorted N w = Done (d, w') ->
  exists d0,
    comp_efficiency N w = Done (d0, w') /\
    map fst d0 = algorithm_names /\
    List.length d = 4%nat /\
    Permutation (map fst d) algorithm_names /\
    Sorted by_time d /\
    Permutation d d0 /\
    forall k, dict_get d k = dict_get d0 k.
Proof.
  unfold comp_efficiency_sorted. intro Hd.
  apply bind_done in Hd. destruct Hd as (d0 & w1 & Hd0 & Hd).
  unfold ret in Hd. injection Hd as <- <-.
  exists d0. split; [exact Hd0|].
  apply comp_efficiency_done in Hd0. destruct Hd0 as (t1 & t2 & t3 & t4 & ->).
  set (d0 := [(_, t1); (_, t2); (_, t3); (_, t4)]).
  assert (Hk : map fst d0 = algorithm_names) by reflexivity.
  assert (Hnd : NoDup (map fst d0)).
  { rewrite Hk. unfold algorithm_names.
    repeat constructor; simpl; intuition discriminate. }
  pose proof (sorted_by_time_perm d0) as Hp.
  assert (Hnd' : NoDup (map fst (sorted_by_time d0))).
  { eapply Permutation_NoDup; [apply Permutation_map, Permutation_sym, Hp | exact Hnd]. }
  rewrite (dict_of_items_nodup _ Hnd').
  split; [exact Hk|]. split.
  { rewrite (Permutation_length Hp). reflexivity. }
  split.
  { rewrite <- Hk. now apply Permutation_map. }
  split; [apply sorted_by_time_sorted|].
  split; [exact Hp|].
  intro k. apply dict_get_perm; assumption.
Qed.

(** The table of the recorded run. *)
Lemma comp_efficiency_sorted_table_witness :
  exists d w',
    comp_efficiency_sorted 2 recorded_run = Done (d, w') /\
    List.length d = 4%nat /\ Sorted by_time d.
Proof.
  destruct recorded_run_completes as (d & w' & Hrun).
  exists d, w'. split; [exact Hrun|].
  destruct (@comp_efficiency_sorted_table 2 recorded_run d w' Hrun)
    as (d0 & _ & _ & Hlen & _ & Hsorted & _).
  split; assumption.
Defined.

End ExactClaims.

Section Binary64Claims.

Local Open Scope float_scope.

(** C2 (the code departs from it). A drawn pair with
    [S = U1^2 + U2^2 = 0] is not rejected: it passes the only test of the
    loop, [S <= 1], and [math.log(S)] raises a ValueError, whatever C library
    computes the logarithm. *)
Theorem bray_marsaglia_raises_at_zero (L : libm) (ds tk : list float) :
  let S := 0 * 0 + 0 * 0 in
  S = 0 /\ (S <=? 1) = true /\
  math_log (H := binary64 L) S = Raised ValueError /\
  bray_marsaglia (H := binary64 L) {| draws := 0 :: 0 :: ds; ticks := tk |}
  = Raised ValueError.
Proof.
  cbv zeta. split; [reflexivity|]. split; [reflexivity|].
  split; [reflexivity|].
  rewrite bray_marsaglia_unroll. reflexivity.
Qed.

(** C7. For [U = 0.5] the inverse-CDF cell takes the central branch with
    [Y = 0] and returns exactly 0, in binary64 for any C library and in
    exact arithmetic. *)
Theorem inverse_cdf_median :
  (forall L : libm,
      0.5 - 0.5 = 0 /\
      (abs (0.5 - 0.5) <? @lit_0_42 _ (binary64 L)) = true /\
      inverse_cdf (H := binary64 L) 0.5 = Done 0) /\
  inverse_cdf 0.5%R = Done 0%R.
Proof.
  split.
  - intro L. repeat split; reflexivity.
  - assert (Hc : (Rabs (0.5 - 0.5) < 0.42)%R).
    { replace (0.5 - 0.5)%R with 0%R by lra. rewrite Rabs_R0. lra. }
    rewrite inverse_cdf_central by exact Hc.
    rewrite float_div_exact.
    + f_equal. unfold Rdiv. replace (0.5 - 0.5)%R with 0%R by lra.
      now rewrite !Rmult_0_l.
    + assert (Hp : (0 < bsm_denominator ((0.5 - 0.5) * (0.5 - 0.5)))%R).
      { apply bsm_denominator_positive. lra. }
      lra.
Qed.

(** Whenever the offset of [1 - U] from one half is the exact negative
    of the offset [Y] of [U] (and [Y] is a number, and [1 - (1 - U)] gives
    [U] back), the two outputs are exact negatives of each other, in the
    central branch and in the tail branch, and an exception raised for one
    input is raised for the other. *)
Lemma inverse_cdf_symmetric_on_exact_offsets (L : libm) (U : float) :
  let Y := U - 0.5 in
  let U' := 1 - U in
  (Y =? Y) = true -> U' - 0.5 = - Y -> 1 - U' = U ->
  inverse_cdf (H := binary64 L) U'
  = outcome_map PrimFloat.opp (inverse_cdf (H := binary64 L) U).
Proof.
  intros Y U' Hnum HY HU.
  unfold inverse_cdf.
  cbn [fsub fabs fltb fmul fopp binary64].
  change (@lit_0_5 _ (binary64 L)) with 0.5.
  change (@lit_1 _ (binary64 L)) with 1.
  change (@lit_0 _ (binary64 L)) with 0.
  fold Y. fold U'. rewrite HY, abs_opp, HU.
  destruct (abs Y <? lit_0_42) eqn:Ec.
  - rewrite mul_opp_opp, mul_opp_l.
    unfold float_div. destruct (_ ==? _)%py; [reflexivity|].
    cbn [outcome_map fdiv binary64]. now rewrite div_opp_l.
  - rewrite ltb_zero_opp.
    destruct (number_cases Hnum) as [[Hp Hn]|[[Hn Hp]|Hz]].
    + rewrite Hp, Hn.
      assert (Es : np_sign (H := binary64 L) Y = 1).
      { unfold np_sign. cbn [fltb binary64]. change (@lit_0 _ (binary64 L)) with 0. now rewrite Hp. }
      assert (Es' : np_sign (H := binary64 L) (- Y) = PrimFloat.opp 1).
      { unfold np_sign. cbn [fltb binary64]. change (@lit_0 _ (binary64 L)) with 0.
        rewrite ltb_zero_opp, ltb_opp_zero, Hn, Hp. reflexivity. }
      rewrite Es, Es'.
      destruct (math_log U') as [l| |]; try reflexivity. cbn [outcome_bind].
      destruct (math_log (PrimFloat.opp l)) as [r| |]; try reflexivity.
      cbn [outcome_bind outcome_map fmul binary64]. now rewrite mul_opp_r.
    + rewrite Hp, Hn.
      assert (Es : np_sign (H := binary64 L) Y = PrimFloat.opp 1).
      { unfold np_sign. cbn [fltb binary64]. change (@lit_0 _ (binary64 L)) with 0. rewrite Hp, Hn. reflexivity. }
      assert (Es' : np_sign (H := binary64 L) (- Y) = 1).
      { unfold np_sign. cbn [fltb binary64]. change (@lit_0 _ (binary64 L)) with 0.
        rewrite ltb_zero_opp, Hn. reflexivity. }
      rewrite Es, Es'.
      destruct (math_log U) as [l| |]; try reflexivity. cbn [outcome_bind].
      destruct (math_log (PrimFloat.opp l)) as [r| |]; try reflexivity.
      cbn [outcome_bind outcome_map fmul binary64]. now rewrite mul_opp_r, opp_involutive.
    + exfalso. destruct Hz as [Hz|Hz]; rewrite Hz in Ec; discriminate Ec.
Qed.

(** Off the grid. The float 0.3 is an odd multiple of [2^-54], a value
    the generator never returns: there [1 - U] is rounded, the two offsets
    from one half are not negatives of each other, and the outputs differ in
    the last digits. *)
Lemma inverse_cdf_asymmetric_at_0_3 :
  Prim2SF 0.3 = S754_finite false 5404319552844595 (-54) /\
  ((1 - 0.3) - 0.5 =? - (0.3 - 0.5)) = false /\
  (forall L : libm,
      inverse_cdf (H := binary64 L) 0.3 = Done (-0.52440051190665271)) /\
  (forall L : libm,
      inverse_cdf (H := binary64 L) (1 - 0.3) = Done 0.52440051190665249) /\
  (-0.52440051190665271 =? - 0.52440051190665249) = false.
Proof. repeat split; intros; vm_compute; reflexivity. Qed.

(** On the grid, beside 0.3. The two multiples of [2^-53] nearest to 0.3,
    each the quotient of its 53 bits by [2^53] as the generator forms it,
    give outputs that are exact negatives. *)
Lemma inverse_cdf_symmetric_beside_0_3 :
  float_of_Z 2702159776422297 / 9007199254740992 = uniform53 2702159776422297 /\
  float_of_Z 2702159776422298 / 9007199254740992 = uniform53 2702159776422298 /\
  uniform53 2702159776422297 = 0.29999999999999993 /\
  uniform53 2702159776422298 = 0.30000000000000004 /\
  (forall L : libm,
      inverse_cdf (H := binary64 L) 0.29999999999999993
      = Done (-0.52440051190665282) /\
      inverse_cdf (H := binary64 L) (1 - 0.29999999999999993)
      = Done 0.52440051190665282) /\
  (forall L : libm,
      inverse_cdf (H := binary64 L) 0.30000000000000004
      = Done (-0.52440051190665249) /\
      inverse_cdf (H := binary64 L) (1 - 0.30000000000000004)
      = Done 0.52440051190665249).
Proof. repeat split; intros; vm_compute; reflexivity. Qed.

(** C3. For every draw [U = k / 2^53] with [0 < k < 2^53], the values
    [np.random.uniform(0, 1)] returns in the open interval, the outputs for
    [U] and [1 - U] are exact negatives of each other in binary64, for any
    C library, in the central branch and in the tail branch; an exception
    raised for one input is raised for the other. At [U = 0.5] both
    outputs are [0.0], which [==] equates with its negation. In exact
    arithmetic the law holds for every real [U] strictly between 0 and 1. *)
Theorem inverse_cdf_symmetry :
  (forall (L : libm) (k : Z), (0 < k < 2 ^ 53)%Z ->
     let U := uniform53 k in
     (k <> (2 ^ 52)%Z ->
        inverse_cdf (H := binary64 L) (1 - U)
        = outcome_map PrimFloat.opp (inverse_cdf (H := binary64 L) U)) /\
     (k = (2 ^ 52)%Z ->
        inverse_cdf (H := binary64 L) U = Done 0 /\
        inverse_cdf (H := binary64 L) (1 - U) = Done 0 /\
        (0 =? - 0) = true)) /\
  (forall U : R, (0 < U < 1)%R ->
     exists x : R, inverse_cdf U = Done x /\
                   inverse_cdf (1 - U)%R = Done (- x)%R).
Proof.
  split.
  - intros L k Hk U. split.
    + intro Hne.
      destruct (offsets_exact_on_grid Hk Hne) as (Hnum & HY & HU).
      now apply inverse_cdf_symmetric_on_exact_offsets.
    + intros ->. repeat split; reflexivity.
  - intros U HU. destruct (inverse_cdf_total HU) as [x Hx].
    exists x. split; [exact Hx|].
    now rewrite inverse_cdf_symmetry_exact, Hx.
Qed.

(** Draws of the central branch (0.75, 0.25) and of the tail branch
    (0.9375). *)
Lemma inverse_cdf_symmetry_witness :
  uniform53 6755399441055744 = 0.75 /\
  uniform53 8444249301319680 = 0.9375 /\
  (forall L : libm,
      inverse_cdf (H := binary64 L) (1 - 0.75)
      = outcome_map PrimFloat.opp (inverse_cdf (H := binary64 L) 0.75)) /\
  (forall L : libm,
      inverse_cdf (H := binary64 L) (1 - 0.9375)
      = outcome_map PrimFloat.opp (inverse_cdf (H := binary64 L) 0.9375)) /\
  (exists x : R, inverse_cdf 0.25%R = Done x /\
                 inverse_cdf (1 - 0.25)%R = Done (- x)%R).
Proof.
  split; [reflexivity|]. split; [reflexivity|].
  split; [|split].
  - intro L.
    apply (proj1 (proj1 inverse_cdf_symmetry L 6755399441055744%Z
                    ltac:(split; reflexivity))).
    discriminate.
  - intro L.
    apply (proj1 (proj1 inverse_cdf_symmetry L 8444249301319680%Z
                    ltac:(split; reflexivity))).
    discriminate.
  - apply (proj2 inverse_cdf_symmetry 0.25%R). lra.
Defined.

(** C5 (the code departs from it). The bound of the loops over pairs is
    [int(N / 2)]: the quotient is rounded to a float before it is
    truncated. For [N = 2^53 + 3] the quotient 4503599627370497.5 rounds to
    4503599627370498.0, and each of the two loops over pairs is
    [range(floor(N / 2) + 1)]: one pass more than the floor of [N / 2]. *)
Theorem int_half_above_floor :
  let N := 9007199254740995%Z in
  (N = 2 ^ 53 + 3)%Z /\
  (N / 2 = 4503599627370497)%Z /\
  forall L : libm,
    int_half (H := binary64 L) N = Done 4503599627370498%Z /\
    (forall w : @world float,
        run_box_mueller (H := binary64 L) N w
        = for_range (S (Z.to_nat (N / 2))) (box_mueller (H := binary64 L)) w) /\
    (forall w : @world float,
        run_bray_marsaglia (H := binary64 L) N w
        = for_range (S (Z.to_nat (N / 2))) (bray_marsaglia (H := binary64 L)) w) /\
    (forall (w : @world float) l w',
        run_box_mueller (H := binary64 L) N w = Done (l, w') ->
        List.length l = S (Z.to_nat (N / 2))) /\
    (forall (w : @world float) l w',
        run_bray_marsaglia (H := binary64 L) N w = Done (l, w') ->
        List.length l = S (Z.to_nat (N / 2))).
Proof.
  intro N.
  assert (Hfloor : (N / 2 = 4503599627370497)%Z) by reflexivity.
  split; [reflexivity|]. split; [exact Hfloor|]. intro L.
  assert (Hh : int_half (H := binary64 L) N = Done 4503599627370498%Z)
    by (vm_compute; reflexivity).
  assert (Hn : Z.to_nat 4503599627370498 = S (Z.to_nat (N / 2))).
  { rewrite Hfloor, <- Z2Nat.inj_succ by lia. reflexivity. }
  assert (Hbm : forall w : @world float,
             run_box_mueller (H := binary64 L) N w
             = for_range (S (Z.to_nat (N / 2))) (box_mueller (H := binary64 L)) w).
  { intro w. unfold run_box_mueller. rewrite (@pair_run_bound _ L N _ _ w Hh), Hn. reflexivity. }
  assert (Hpolar : forall w : @world float,
             run_bray_marsaglia (H := binary64 L) N w
             = for_range (S (Z.to_nat (N / 2))) (bray_marsaglia (H := binary64 L)) w).
  { intro w. unfold run_bray_marsaglia. rewrite (@pair_run_bound _ L N _ _ w Hh), Hn. reflexivity. }
  split; [exact Hh|]. split; [exact Hbm|]. split; [exact Hpolar|].
  split; intros w l w' Hd.
  - rewrite Hbm in Hd. exact (for_range_length _ _ _ Hd).
  - rewrite Hpolar in Hd. exact (for_range_length _ _ _ Hd).
Qed.

(** What the code does right. The loops over single variates are
    [range(N)] and make [N] passes for every [N]; for [0 <= N < 2^53] the
    quotient [N / 2] is a float, [int(N / 2)] is the floor of [N / 2], and
    the loops over pairs make that many passes (twice as many variates;
    twice as many draws for Box-Mueller). *)
Lemma harness_invocations (L : libm) (N : Z) :
  (forall (w : @world float) l w',
      run_beasley_springer_moro (H := binary64 L) N w = Done (l, w') ->
      List.length l = Z.to_nat N /\
      exists taken, List.length taken = Z.to_nat N /\
                    draws w = taken ++ draws w') /\
  (forall (w : @world float) l w',
      run_acceptance_rejection (H := binary64 L) N w = Done (l, w') ->
      List.length l = Z.to_nat N) /\
  ((0 <= N < 2 ^ 53)%Z ->
   int_half (H := binary64 L) N = Done (N / 2)%Z /\
   (forall (w : @world float) l w',
       run_box_mueller (H := binary64 L) N w = Done (l, w') ->
       List.length l = Z.to_nat (N / 2) /\
       List.length (variates l) = (2 * Z.to_nat (N / 2))%nat /\
       exists taken, List.length taken = (2 * Z.to_nat (N / 2))%nat /\
                     draws w = taken ++ draws w') /\
   (forall (w : @world float) l w',
       run_bray_marsaglia (H := binary64 L) N w = Done (l, w') ->
       List.length l = Z.to_nat (N / 2) /\
       List.length (variates l) = (2 * Z.to_nat (N / 2))%nat)).
Proof.
  split; [|split].
  - intros w l w' Hd. unfold run_beasley_springer_moro in Hd.
    split; [exact (for_range_length _ _ _ Hd)|].
    assert (Hdr : exists taken,
               List.length taken = (Z.to_nat N * 1)%nat /\
               draws w = taken ++ draws w')
      by (eapply for_range_draws;
          [exact (beasley_springer_moro_takes_one (H := binary64 L)) | exact Hd]).
    destruct Hdr as (taken & Ht & Hw).
    exists taken. split; [lia | exact Hw].
  - intros w l w' Hd. exact (for_range_length _ _ _ Hd).
  - intros [Hpos Hlt].
    assert (Hh : int_half (H := binary64 L) N = Done (N / 2)%Z)
      by (apply int_half_binary64; lia).
    destruct (run_lengths (H := binary64 L) N Hh) as (Hbm & Hpolar & _ & _).
    destruct (run_draws (H := binary64 L) N Hh) as (Dbm & _).
    split; [exact Hh|]. split.
    + intros w l w' Hd. pose proof (Hbm w l w' Hd) as Hl.
      split; [exact Hl|]. split; [now rewrite variates_length, Hl|].
      destruct (Dbm w l w' Hd) as (taken & Ht & Hw).
      exists taken. split; [lia | exact Hw].
    + intros w l w' Hd. pose proof (Hpolar w l w' Hd) as Hl.
      split; [exact Hl|]. now rewrite variates_length, Hl.
Qed.

(** The loops at the smallest odd count: no pair, one single variate. *)
Lemma harness_invocations_at_one (L : libm) (ds tk : list float) :
  run_box_mueller (H := binary64 L) 1 {| draws := ds; ticks := tk |}
  = Done ([], {| draws := ds; ticks := tk |}) /\
  run_bray_marsaglia (H := binary64 L) 1 {| draws := ds; ticks := tk |}
  = Done ([], {| draws := ds; ticks := tk |}) /\
  run_beasley_springer_moro (H := binary64 L) 1
    {| draws := 0.5 :: ds; ticks := tk |}
  = Done ([0], {| draws := ds; ticks := tk |}).
Proof. repeat split; reflexivity. Qed.

End Binary64Claims.

(** * Further properties of the cells *)

(** ** In any arithmetic *)

Section LoopFacts.

Context {F : Type} `{Arith F}.

Local Open Scope py_scope.

(** *** Verdicts *)

Lemma ar_pass_verdict (U1 U2 U3 : F) (ds tk : list F) :
  ar_pass {| draws := U1 :: U2 :: U3 :: ds; ticks := tk |}
  = outcome_map (fun v => (v, {| draws := ds; ticks := tk |}))
      (ar_verdict (U1, U2, U3)).
Proof.
  rewrite ar_pass_eq. unfold ar_verdict.
  destruct (math_log U1); reflexivity.
Qed.

Lemma polar_pass_verdict (U1 U2 : F) (ds tk : list F) :
  polar_pass {| draws := U1 :: U2 :: ds; ticks := tk |}
  = outcome_map (fun v => (v, {| draws := ds; ticks := tk |}))
      (polar_verdict (U1, U2)).
Proof.
  pose proof (polar_pass_eq U1 U2 ds tk) as He. cbv zeta in He. rewrite He.
  unfold polar_verdict. cbv zeta.
  destruct (_ <=? lit_1); [|reflexivity].
  destruct (math_log _) as [l| |]; try reflexivity. cbn [outcome_bind].
  destruct (math_sqrt _); reflexivity.
Qed.

Lemma acceptance_rejection_verdict (t : F * F * F) (ds tk : list F) :
  acceptance_rejection {| draws := triple_draws [t] ++ ds; ticks := tk |} =
  match ar_verdict t with
  | Done (Break x) => Done (x, {| draws := ds; ticks := tk |})
  | Done Again => acceptance_rejection {| draws := ds; ticks := tk |}
  | Raised e => Raised e
  | Starved => Starved
  end.
Proof.
  destruct t as [[U1 U2] U3]. cbn [triple_draws flat_map fst snd app].
  unfold acceptance_rejection.
  rewrite while_true_unroll by exact ar_pass_consuming.
  rewrite ar_pass_verdict.
  destruct (ar_verdict (U1, U2, U3)) as [[x|]| |]; reflexivity.
Qed.

Lemma bray_marsaglia_verdict (p : F * F) (ds tk : list F) :
  bray_marsaglia {| draws := pair_draws [p] ++ ds; ticks := tk |} =
  match polar_verdict p with
  | Done (Break xy) => Done (xy, {| draws := ds; ticks := tk |})
  | Done Again => bray_marsaglia {| draws := ds; ticks := tk |}
  | Raised e => Raised e
  | Starved => Starved
  end.
Proof.
  destruct p as [U1 U2]. cbn [pair_draws flat_map fst snd app].
  unfold bray_marsaglia.
  rewrite while_true_unroll by exact polar_pass_consuming.
  rewrite polar_pass_verdict.
  destruct (polar_verdict (U1, U2)) as [[xy|]| |]; reflexivity.
Qed.

Lemma triple_draws_cons (t : F * F * F) (ts : list (F * F * F)) :
  triple_draws (t :: ts) = triple_draws [t] ++ triple_draws ts.
Proof. reflexivity. Qed.

Lemma pair_draws_cons (p : F * F) (ps : list (F * F)) :
  pair_draws (p :: ps) = pair_draws [p] ++ pair_draws ps.
Proof. reflexivity. Qed.

(** X2. The acceptance-rejection loop stops at the first triple that it
    does not send back to the top: after any number of triples whose pass
    ends without [break], the next triple alone decides. A pass that breaks
    returns its variate and leaves every later draw unread; a failing
    [math.log] ends the loop with its error; otherwise the loop goes on
    with the draws that follow. *)
Theorem acceptance_rejection_first_verdict
    (rejected : list (F * F * F)) (t : F * F * F) (ds tk : list F) :
  Forall (fun r => ar_verdict r = Done Again) rejected ->
  acceptance_rejection
    {| draws := triple_draws rejected ++ triple_draws [t] ++ ds; ticks := tk |} =
  match ar_verdict t with
  | Done (Break x) => Done (x, {| draws := ds; ticks := tk |})
  | Done Again => acceptance_rejection {| draws := ds; ticks := tk |}
  | Raised e => Raised e
  | Starved => Starved
  end.
Proof.
  intro Hr. induction Hr as [|r rejected Hv _ IH].
  - apply acceptance_rejection_verdict.
  - rewrite triple_draws_cons, <- app_assoc.
    rewrite acceptance_rejection_verdict, Hv. exact IH.
Qed.

(** X4. The same for the polar loop and its pairs of draws. *)
Theorem bray_marsaglia_first_verdict
    (rejected : list (F * F)) (p : F * F) (ds tk : list F) :
  Forall (fun r => polar_verdict r = Done Again) rejected ->
  bray_marsaglia
    {| draws := pair_draws rejected ++ pair_draws [p] ++ ds; ticks := tk |} =
  match polar_verdict p with
  | Done (Break xy) => Done (xy, {| draws := ds; ticks := tk |})
  | Done Again => bray_marsaglia {| draws := ds; ticks := tk |}
  | Raised e => Raised e
  | Starved => Starved
  end.
Proof.
  intro Hr. induction Hr as [|r rejected Hv _ IH].
  - apply bray_marsaglia_verdict.
  - rewrite pair_draws_cons, <- app_assoc.
    rewrite bray_marsaglia_verdict, Hv. exact IH.
Qed.

(** *** The clock *)

Lemma passes_clock {A : Type} (body : @M F (pass A)) (w w0 : @world F) :
  keeps_clock body -> passes body w w0 -> ticks w0 = ticks w.
Proof.
  intros Hk Hp. induction Hp as [w|w w1 w2 Hstep Hp IH]; [reflexivity|].
  rewrite IH. exact (Hk _ _ _ Hstep).
Qed.

Lemma while_true_keeps_clock {A : Type} (body : @M F (pass A)) :
  keeps_clock body -> keeps_clock (while_true body).
Proof.
  intros Hk w a w' Hd. apply while_true_done in Hd.
  destruct Hd as (w0 & Hp & Hb).
  rewrite (Hk _ _ _ Hb). now apply passes_clock with (body := body).
Qed.

Lemma for_range_keeps_clock {A : Type} (body : @M F A) (n : nat) :
  keeps_clock body -> keeps_clock (for_range n body).
Proof.
  intro Hk. induction n as [|n IH]; intros w l w'; simpl.
  - unfold ret. intro Hd. now injection Hd as _ <-.
  - intro Hd. apply bind_done in Hd. destruct Hd as (a & w1 & Ha & Hd).
    apply bind_done in Hd. destruct Hd as (l1 & w2 & Hl & Hd).
    unfold ret in Hd. injection Hd as _ <-.
    rewrite (IH _ _ _ Hl). exact (Hk _ _ _ Ha).
Qed.

Lemma box_mueller_keeps_clock : keeps_clock box_mueller.
Proof.
  intros [[|U1 [|U2 ds]] tk] p w'; try discriminate.
  rewrite box_mueller_eq. destruct (math_sqrt _); try discriminate.
  intro Hd. now injection Hd as _ <-.
Qed.

Lemma beasley_springer_moro_keeps_clock : keeps_clock beasley_springer_moro.
Proof.
  intros [[|U ds] tk] x w'; try discriminate.
  rewrite beasley_springer_moro_eq. destruct (inverse_cdf U); try discriminate.
  intro Hd. now injection Hd as _ <-.
Qed.

Lemma acceptance_rejection_keeps_clock : keeps_clock acceptance_rejection.
Proof.
  apply while_true_keeps_clock. intros w r w' Hd.
  apply ar_pass_done in Hd. now destruct Hd as (U1 & U2 & U3 & l & _ & Hk & _).
Qed.

Lemma bray_marsaglia_keeps_clock : keeps_clock bray_marsaglia.
Proof.
  apply while_true_keeps_clock. intros w r w' Hd.
  apply polar_pass_done in Hd. now destruct Hd as (U1 & U2 & _ & Hk & _).
Qed.

Lemma pair_run_keeps_clock {A : Type} (body : @M F A) (N : Z) :
  keeps_clock body ->
  keeps_clock (bind (lift (int_half N)) (fun n => for_range (Z.to_nat n) body)).
Proof.
  intros Hk w l w' Hd. apply bind_done in Hd.
  destruct Hd as (n & w1 & Hn & Hd). apply lift_done in Hn.
  destruct Hn as [_ ->]. exact (for_range_keeps_clock (Z.to_nat n) Hk _ Hd).
Qed.

Lemma timed_clock {A : Type} (run : @M F A) (w : @world F) t w' :
  keeps_clock run -> timed run w = Done (t, w') ->
  exists t0 t1, ticks w = t0 :: t1 :: ticks w' /\ t = t1 - t0.
Proof.
  intros Hk Hd. unfold timed in Hd.
  apply bind_done in Hd. destruct Hd as (t0 & w1 & H0 & Hd).
  apply bind_done in Hd. destruct Hd as (a & w2 & Hr & Hd).
  apply bind_done in Hd. destruct Hd as (t1 & w3 & H1 & Hd).
  unfold ret in Hd. injection Hd as <- <-.
  apply Hk in Hr. unfold now in H0, H1.
  destruct (ticks w) as [|x ts] eqn:Ew; [discriminate|].
  injection H0 as <- <-. simpl in Hr.
  destruct (ticks w2) as [|y ts'] eqn:E2; [discriminate|].
  injection H1 as <- <-. simpl. exists x, y. split; [congruence | reflexivity].
Qed.

(** X11. When the four timed cells complete they have read the clock
    exactly eight times, twice per cell and never inside a loop, and the
    table holds, under the four names in the order the cells ran, the
    difference of each cell's two readings. *)
Theorem comp_efficiency_clock (N : Z) (w : @world F) d w' :
  comp_efficiency N w = Done (d, w') ->
  exists t0 t1 t2 t3 t4 t5 t6 t7 : F,
    ticks w = [t0; t1; t2; t3; t4; t5; t6; t7] ++ ticks w' /\
    d = [("Box-Mueller"%string, t1 - t0);
         ("Acceptance-Rejection"%string, t3 - t2);
         ("Bray-Marsaglia"%string, t5 - t4);
         ("Beasley-Springer-Moro"%string, t7 - t6)].
Proof.
  unfold comp_efficiency. intro Hd.
  apply bind_done in Hd. destruct Hd as (e1 & w1 & H1 & Hd).
  apply bind_done in Hd. destruct Hd as (e2 & w2 & H2 & Hd).
  apply bind_done in Hd. destruct Hd as (e3 & w3 & H3 & Hd).
  apply bind_done in Hd. destruct Hd as (e4 & w4 & H4 & Hd).
  unfold ret in Hd. injection Hd as <- <-.
  apply timed_clock in H1;
    [|apply pair_run_keeps_clock, box_mueller_keeps_clock].
  apply timed_clock in H2;
    [|apply for_range_keeps_clock, acceptance_rejection_keeps_clock].
  apply timed_clock in H3;
    [|apply pair_run_keeps_clock, bray_marsaglia_keeps_clock].
  apply timed_clock in H4;
    [|apply for_range_keeps_clock, beasley_springer_moro_keeps_clock].
  destruct H1 as (t0 & t1 & E1 & ->). destruct H2 as (t2 & t3 & E2 & ->).
  destruct H3 as (t4 & t5 & E3 & ->). destruct H4 as (t6 & t7 & E4 & ->).
  exists t0, t1, t2, t3, t4, t5, t6, t7. split; [|reflexivity].
  rewrite E1, E2, E3, E4. reflexivity.
Qed.

(** *** How many draws a loop takes *)

Lemma passes_count {A : Type} (body : @M F (pass A)) (k : nat) :
  (forall w r w', body w = Done (r, w') ->
     List.length (draws w) = (k + List.length (draws w'))%nat) ->
  forall w w0, passes body w w0 ->
    exists j, List.length (draws w) = (k * j + List.length (draws w0))%nat.
Proof.
  intros Hb w w0 Hp. induction Hp as [w|w w1 w2 Hstep Hp IH].
  - exists 0%nat. lia.
  - destruct IH as (j & Hj). apply Hb in Hstep. exists (S j). lia.
Qed.

Lemma while_true_count {A : Type} (body : @M F (pass A)) (k : nat) :
  (forall w r w', body w = Done (r, w') ->
     List.length (draws w) = (k + List.length (draws w'))%nat) ->
  forall w a w', while_true body w = Done (a, w') ->
    exists j, (1 <= j)%nat /\
              List.length (draws w) = (k * j + List.length (draws w'))%nat.
Proof.
  intros Hb w a w' Hd. apply while_true_done in Hd.
  destruct Hd as (w0 & Hp & Hlast).
  destruct (passes_count _ Hb Hp) as (j & Hj).
  apply Hb in Hlast. exists (S j). split; lia.
Qed.

Lemma for_range_count {A : Type} (body : @M F A) (k : nat) :
  (forall w a w', body w = Done (a, w') ->
     exists j, (1 <= j)%nat /\
               List.length (draws w) = (k * j + List.length (draws w'))%nat) ->
  forall n w l w', for_range n body w = Done (l, w') ->
    exists j, (n <= j)%nat /\
              List.length (draws w) = (k * j + List.length (draws w'))%nat.
Proof.
  intros Hb n. induction n as [|n IH]; intros w l w'; simpl.
  - unfold ret. intro Hd. injection Hd as _ <-. exists 0%nat. lia.
  - intro Hd. apply bind_done in Hd. destruct Hd as (a & w1 & Ha & Hd).
    apply bind_done in Hd. destruct Hd as (l1 & w2 & Hl & Hd).
    unfold ret in Hd. injection Hd as _ <-.
    destruct (Hb _ _ _ Ha) as (j1 & Hj1 & E1).
    destruct (IH _ _ _ Hl) as (j2 & Hj2 & E2).
    exists (j1 + j2)%nat. split; lia.
Qed.

Lemma ar_pass_takes_three (w : @world F) r w' :
  ar_pass w = Done (r, w') ->
  List.length (draws w) = (3 + List.length (draws w'))%nat.
Proof.
  intro Hd. apply ar_pass_done in Hd.
  destruct Hd as (U1 & U2 & U3 & l & -> & _). reflexivity.
Qed.

Lemma polar_pass_takes_two (w : @world F) r w' :
  polar_pass w = Done (r, w') ->
  List.length (draws w) = (2 + List.length (draws w'))%nat.
Proof.
  intro Hd. apply polar_pass_done in Hd.
  destruct Hd as (U1 & U2 & -> & _). reflexivity.
Qed.

(** X7. A completed acceptance-rejection cell has taken its draws three
    at a time and a completed polar cell two at a time, in each case at
    least one group per variate it produced. *)
Theorem rejection_runs_draws (N : Z) (w : @world F) :
  (forall l w', run_acceptance_rejection N w = Done (l, w') ->
     exists j, (List.length l <= j)%nat /\
       List.length (draws w) = (3 * j + List.length (draws w'))%nat) /\
  (forall l w', run_bray_marsaglia N w = Done (l, w') ->
     exists j, (List.length l <= j)%nat /\
       List.length (draws w) = (2 * j + List.length (draws w'))%nat).
Proof.
  split; intros l w' Hd.
  - unfold run_acceptance_rejection in Hd.
    rewrite (for_range_length _ _ _ Hd).
    eapply for_range_count; [|exact Hd].
    intros w1 a w2. apply while_true_count. exact ar_pass_takes_three.
  - unfold run_bray_marsaglia in Hd. apply bind_done in Hd.
    destruct Hd as (n & w1 & Hn & Hd). apply lift_done in Hn.
    destruct Hn as [_ ->].
    rewrite (for_range_length _ _ _ Hd).
    eapply for_range_count; [|exact Hd].
    intros w1 a w2. apply while_true_count. exact polar_pass_takes_two.
Qed.

Lemma acceptance_rejection_short (w : @world F) :
  (List.length (draws w) < 3)%nat -> acceptance_rejection w = Starved.
Proof.
  destruct w as [[|U1 [|U2 [|U3 ds]]] tk]; simpl; intro Hl;
    try reflexivity; lia.
Qed.

Lemma bray_marsaglia_short (w : @world F) :
  (List.length (draws w) < 2)%nat -> bray_marsaglia w = Starved.
Proof.
  destruct w as [[|U1 [|U2 ds]] tk]; simpl; intro Hl;
    try reflexivity; lia.
Qed.

Lemma math_log_positive (x : F) :
  (x <=? lit_0) = false -> math_log x = Done (m_log x).
Proof. intro Hx. unfold math_log. now rewrite Hx. Qed.

(** X3. On draws that are all above zero the acceptance-rejection loop
    never raises: it returns a variate, or it is still looping when the
    recorded draws run out. *)
Theorem acceptance_rejection_never_raises (w : @world F) :
  Forall (fun u => (u <=? lit_0) = false) (draws w) ->
  (exists x w', acceptance_rejection w = Done (x, w')) \/
  acceptance_rejection w = Starved.
Proof.
  destruct w as [ds tk]. simpl.
  remember (List.length ds) as n eqn:En.
  revert ds En. induction n as [n IH] using lt_wf_ind. intros ds En Hpos.
  destruct ds as [|U1 [|U2 [|U3 ds']]];
    try (right; apply acceptance_rejection_short; simpl; lia).
  rewrite acceptance_rejection_unroll.
  inversion Hpos as [|? ? H1 Hpos1]; subst.
  inversion Hpos1 as [|? ? H2 Hpos2]; subst.
  inversion Hpos2 as [|? ? H3 Hpos3]; subst.
  rewrite (math_log_positive _ H1).
  assert (Hrec : (exists x w', acceptance_rejection
                     {| draws := ds'; ticks := tk |} = Done (x, w')) \/
                 acceptance_rejection {| draws := ds'; ticks := tk |} = Starved).
  { apply (IH (List.length ds')); [simpl; lia | reflexivity | exact Hpos3]. }
  destruct (ar_accepts _ U2); [destruct (U3 <=? lit_0_5)|]; try exact Hrec.
  left. eauto.
Qed.

(** What holds of the draws still to come holds of what a loop collects
    from them. *)
Lemma for_range_Forall_draws {A : Type} (Q : F -> Prop) (P : A -> Prop)
    (body : @M F A) :
  (forall w a w', body w = Done (a, w') -> Forall Q (draws w) ->
     P a /\ Forall Q (draws w')) ->
  forall n w l w', for_range n body w = Done (l, w') ->
    Forall Q (draws w) -> Forall P l.
Proof.
  intros Hb n. induction n as [|n IH]; intros w l w'; simpl.
  - unfold ret. intro Hd. injection Hd as <- _. constructor.
  - intros Hd HQ. apply bind_done in Hd. destruct Hd as (a & w1 & Ha & Hd).
    apply bind_done in Hd. destruct Hd as (l1 & w2 & Hl & Hd).
    unfold ret in Hd. injection Hd as <- _.
    destruct (Hb _ _ _ Ha HQ) as [HP HQ1]. constructor; eauto.
Qed.

(** The inverse-CDF loop turns its draws into variates one by one. *)
Lemma for_range_beasley_springer_moro (us xs ds tk : list F) :
  Forall2 (fun u x => inverse_cdf u = Done x) us xs ->
  for_range (List.length us) beasley_springer_moro
    {| draws := us ++ ds; ticks := tk |}
  = Done (xs, {| draws := ds; ticks := tk |}).
Proof.
  induction 1 as [|u x us xs Hu Hus IH]; [reflexivity|].
  cbn [List.length for_range app].
  unfold bind at 1. rewrite beasley_springer_moro_eq, Hu.
  cbn [outcome_map]. unfold bind at 1. rewrite IH. reflexivity.
Qed.

End LoopFacts.

(** ** In exact arithmetic *)

Section ExactProperties.

Local Open Scope R_scope.

(** *** Cell 5 and cell 11 *)

(** X1. The pair Box-Mueller computes from a first draw in (0, 1] lies on
    the circle of squared radius [-2 ln U1]. *)
Theorem box_mueller_radius (U1 U2 Z1 Z2 : R) (ds tk : list R) (w' : @world R) :
  0 < U1 <= 1 ->
  box_mueller {| draws := U1 :: U2 :: ds; ticks := tk |} = Done ((Z1, Z2), w') ->
  Z1 * Z1 + Z2 * Z2 = -2 * ln U1.
Proof.
  intros [H0 H1] Hd. rewrite box_mueller_eq in Hd.
  assert (Hl : ln U1 <= 0).
  { destruct H1 as [Hlt|Heq].
    - left. rewrite <- ln_1. apply ln_increasing; lra.
    - right. rewrite Heq. apply ln_1. }
  assert (Harg : 0 <= fmul lit_m2 (np_log U1)).
  { exact_ops. exact_small_lits. lra. }
  rewrite (math_sqrt_exact Harg) in Hd.
  exact_ops. exact_small_lits. injection Hd as <- <- _.
  set (c := R_sqrt.sqrt (-2 * ln U1)).
  assert (Hc : c * c = -2 * ln U1) by (apply sqrt_sqrt; lra).
  pose proof (sin2_cos2 (2 * PI * U2)) as Ht. unfold Rsqr in Ht.
  transitivity (c * c * (sin (2 * PI * U2) * sin (2 * PI * U2) +
                         cos (2 * PI * U2) * cos (2 * PI * U2))); [ring|].
  rewrite Ht, Hc. ring.
Qed.

Lemma bray_marsaglia_accepts (U1 U2 : R) :
  let S := U1 * U1 + U2 * U2 in
  0 < S <= 1 ->
  polar_verdict (U1, U2)
  = Done (Break (U1 * R_sqrt.sqrt (-2 * ln S / S),
                 U2 * R_sqrt.sqrt (-2 * ln S / S))).
Proof.
  intros S [H0 H1]. unfold polar_verdict. exact_ops. exact_small_lits.
  fold S. rewrite Rleb_true by exact H1.
  rewrite math_log_exact by exact H0. cbn [outcome_bind].
  assert (Hl : ln S <= 0).
  { destruct H1 as [Hlt|Heq].
    - left. rewrite <- ln_1. apply ln_increasing; lra.
    - right. rewrite Heq. apply ln_1. }
  rewrite math_sqrt_exact; [reflexivity|].
  exact_ops. exact_small_lits.
  apply Rmult_le_pos; [lra|]. apply Rlt_le, Rinv_0_lt_compat. exact H0.
Qed.

(** X5. The pair the polar loop emits comes from a pair of draws with
    [0 < S <= 1]; it lies on the circle of squared radius [-2 ln S] and
    points in the direction of [(U1, U2)]. *)
Theorem bray_marsaglia_radius (w : @world R) (X Y : R) (w' : @world R) :
  bray_marsaglia w = Done ((X, Y), w') ->
  exists skipped U1 U2,
    draws w = skipped ++ U1 :: U2 :: draws w' /\
    let S := U1 * U1 + U2 * U2 in
    0 < S <= 1 /\ X * X + Y * Y = -2 * ln S /\ X * U2 = Y * U1.
Proof.
  intro Hd. apply bray_marsaglia_emits in Hd.
  destruct Hd as (skipped & U1 & U2 & l & s & Hw & HS & Hl & Hs & -> & ->).
  exists skipped, U1, U2. split; [exact Hw|]. cbv zeta.
  exact_ops. exact_small_lits. apply Rleb_le in HS.
  apply math_log_done in Hl. destruct Hl as [Hpos ->].
  set (S := U1 * U1 + U2 * U2) in *.
  assert (Hl : ln S <= 0).
  { destruct HS as [Hlt|Heq].
    - left. rewrite <- ln_1. apply ln_increasing; lra.
    - right. rewrite Heq. apply ln_1. }
  assert (Harg : 0 <= -2 * ln S / S).
  { apply Rmult_le_pos; [lra|]. apply Rlt_le, Rinv_0_lt_compat. exact Hpos. }
  rewrite (math_sqrt_exact Harg) in Hs. injection Hs as <-.
  split; [lra|]. split; [|ring].
  set (c := R_sqrt.sqrt (-2 * ln S / S)).
  assert (Hc : c * c = -2 * ln S / S) by (apply sqrt_sqrt; exact Harg).
  replace (U1 * c * (U1 * c) + U2 * c * (U2 * c)) with (S * (c * c))
    by (unfold S; ring).
  rewrite Hc. field. lra.
Qed.

(** X6. On draws none of which is zero the polar loop never raises: it
    returns a pair, or it is still looping when the recorded draws run
    out. *)
Theorem bray_marsaglia_never_raises (w : @world R) :
  Forall (fun u => u <> 0) (draws w) ->
  (exists p w', bray_marsaglia w = Done (p, w')) \/ bray_marsaglia w = Starved.
Proof.
  destruct w as [ds tk]. simpl.
  remember (List.length ds) as n eqn:En.
  revert ds En. induction n as [n IH] using lt_wf_ind. intros ds En Hnz.
  destruct ds as [|U1 [|U2 ds']];
    try (right; apply bray_marsaglia_short; simpl; lia).
  inversion Hnz as [|? ? H1 Hnz1]; subst.
  inversion Hnz1 as [|? ? H2 Hnz2]; subst.
  change (U1 :: U2 :: ds') with (pair_draws [(U1, U2)] ++ ds').
  rewrite bray_marsaglia_verdict.
  assert (Hpos : 0 < U1 * U1 + U2 * U2).
  { assert (0 < U1 * U1) by nra. nra. }
  destruct (Rle_dec (U1 * U1 + U2 * U2) 1) as [Hle|Hgt].
  - rewrite bray_marsaglia_accepts by (split; assumption). left. eauto.
  - assert (Hv : polar_verdict (U1, U2) = Done Again).
    { unfold polar_verdict. exact_ops. exact_small_lits.
      now rewrite Rleb_false by lra. }
    rewrite Hv.
    apply (IH (List.length ds')); [simpl; lia | reflexivity | exact Hnz2].
Qed.

(** *** Cell 14 *)

Lemma bsm_numerator_exact (r : R) :
  bsm_numerator r
  = 2.50662823884 + r * (-18.61500062529 + r * (41.39119773534 + r * -25.44106049637)).
Proof. unfold bsm_numerator. exact_ops. exact_lits. lra. Qed.

Lemma bsm_numerator_positive (r : R) :
  0 <= r < 0.1764 -> 0 < bsm_numerator r.
Proof.
  intros [H0 H1]. rewrite bsm_numerator_exact.
  assert (Hs : 36.9 <= 41.39119773534 + r * -25.44106049637) by nra.
  assert (Hq : 0 <= (r - 0.2522) * (r - 0.2522)) by nra.
  nra.
Qed.

Lemma bsm_tail_positive (r : R) : 0 <= r -> 0 < bsm_tail r.
Proof.
  intro Hr. unfold bsm_tail. exact_ops. exact_lits.
  repeat (apply Rplus_lt_le_0_compat; [lra | apply Rmult_le_pos; [exact Hr|]; apply Rlt_le]).
  lra.
Qed.

Lemma ln_tail_bound (r0 : R) : 0 < r0 <= 0.08 -> ln r0 < -1.
Proof.
  intros [H0 H1]. rewrite <- (ln_exp (-1)).
  apply ln_increasing; [exact H0|].
  assert (He : exp (-1) * exp 1 = 1).
  { rewrite <- exp_plus. replace (-1 + 1) with 0 by lra. apply exp_0. }
  pose proof exp_le_3 as H3. pose proof (exp_pos (-1)) as Hp.
  nra.
Qed.

Lemma inverse_cdf_tail (U : R) :
  0.42 <= Rabs (U - 0.5) ->
  let r0 := if Rltb 0 (U - 0.5) then 1 - U else U in
  0 < r0 <= 0.08 ->
  inverse_cdf U = Done (bsm_tail (ln (- ln r0)) * np_sign (U - 0.5)).
Proof.
  intros Ht r0 Hr0. unfold inverse_cdf. exact_ops. exact_small_lits.
  rewrite Rltb_false by lra. fold r0.
  pose proof (ln_tail_bound Hr0) as Hl.
  rewrite math_log_exact by lra. cbn [outcome_bind].
  rewrite math_log_exact by lra. reflexivity.
Qed.

(** X8. The inverse-CDF body returns a variate for every draw strictly
    between 0 and 1, and raises ValueError, from [math.log], for every
    other draw: 0, which [np.random.uniform(0, 1)] can return, is one. *)
Theorem inverse_cdf_domain (U : R) :
  (0 < U < 1 -> exists x, inverse_cdf U = Done x) /\
  (U <= 0 -> inverse_cdf U = Raised ValueError) /\
  (1 <= U -> inverse_cdf U = Raised ValueError).
Proof.
  split; [apply inverse_cdf_total|].
  split; intro HU; unfold inverse_cdf; exact_ops; exact_small_lits.
  - rewrite Rltb_false by (rewrite Rabs_left by lra; lra).
    rewrite Rltb_false by lra.
    now rewrite math_log_raises by lra.
  - rewrite Rltb_false by (rewrite Rabs_right by lra; lra).
    rewrite Rltb_true by lra.
    now rewrite math_log_raises by lra.
Qed.

(** X9. The variate of the inverse-CDF body has the sign of [U - 0.5]:
    negative below the median, zero at it, positive above, in the central
    and in the tail branch. *)
Theorem inverse_cdf_sign (U x : R) :
  0 < U < 1 -> inverse_cdf U = Done x ->
  (U < 0.5 -> x < 0) /\ (U = 0.5 -> x = 0) /\ (0.5 < U -> 0 < x).
Proof.
  intros [H0 H1] Hd.
  destruct (Rlt_dec (Rabs (U - 0.5)) 0.42) as [Hc|Ht].
  - rewrite inverse_cdf_central in Hd by exact Hc.
    assert (Hr : 0 <= (U - 0.5) * (U - 0.5) < 0.1764).
    { apply Rabs_def2 in Hc. destruct Hc as [Hlt Hgt].
      assert (Hp : 0 < (0.42 - (U - 0.5)) * (0.42 + (U - 0.5)))
        by (apply Rmult_lt_0_compat; lra).
      pose proof (Rle_0_sqr (U - 0.5)) as Hsq. unfold Rsqr in Hsq. lra. }
    pose proof (bsm_denominator_positive Hr) as Hden.
    pose proof (bsm_numerator_positive Hr) as Hnum.
    set (n := bsm_numerator _) in *. set (d := bsm_denominator _) in *.
    rewrite float_div_exact in Hd by lra.
    assert (Hx : x = (U - 0.5) * n / d) by congruence.
    clearbody n d. subst x.
    assert (Hq : 0 < n / d) by (apply Rdiv_lt_0_compat; assumption).
    replace ((U - 0.5) * n / d) with ((U - 0.5) * (n / d))
      by (unfold Rdiv; ring).
    set (q := n / d) in *.
    repeat split; intro HU.
    + assert (Hm : 0 < (0.5 - U) * q) by (apply Rmult_lt_0_compat; lra).
      lra.
    + subst U. lra.
    + assert (Hm : 0 < (U - 0.5) * q) by (apply Rmult_lt_0_compat; lra).
      lra.
  - assert (Hge : 0.42 <= Rabs (U - 0.5)) by lra.
    destruct (Rlt_dec 0 (U - 0.5)) as [Hpos|Hneg].
    + rewrite Rabs_right in Hge by lra.
      pose proof (@inverse_cdf_tail U) as Htail. cbv zeta in Htail.
      rewrite Rabs_right in Htail by lra.
      rewrite (Rltb_true Hpos) in Htail.
      rewrite Htail in Hd by lra.
      rewrite (np_sign_pos Hpos) in Hd.
      assert (Hl : ln (1 - U) < -1) by (apply ln_tail_bound; lra).
      assert (Hr : 0 <= ln (- ln (1 - U))).
      { left. rewrite <- ln_1. apply ln_increasing; lra. }
      pose proof (bsm_tail_positive Hr) as Hp.
      set (t := bsm_tail _) in *.
      assert (Hx : x = t * 1) by congruence.
      clearbody t. subst x.
      repeat split; intro HU; lra.
    + assert (HY : U - 0.5 < 0).
      { destruct (Req_dec (U - 0.5) 0) as [E0|N0]; [|lra].
        rewrite E0, Rabs_R0 in Hge. lra. }
      rewrite Rabs_left in Hge by lra.
      pose proof (@inverse_cdf_tail U) as Htail. cbv zeta in Htail.
      rewrite Rabs_left in Htail by lra.
      rewrite (Rltb_false (x := 0) (y := U - 0.5)) in Htail by lra.
      rewrite Htail in Hd by lra.
      rewrite (np_sign_neg HY) in Hd.
      assert (Hl : ln U < -1) by (apply ln_tail_bound; lra).
      assert (Hr : 0 <= ln (- ln U)).
      { left. rewrite <- ln_1. apply ln_increasing; lra. }
      pose proof (bsm_tail_positive Hr) as Hp.
      set (t := bsm_tail _) in *.
      assert (Hx : x = t * -1) by congruence.
      clearbody t. subst x.
      repeat split; intro HU; lra.
Qed.

(** X10. On draws strictly between 0 and 1 the inverse-CDF cell runs to
    its end, takes one draw per pass and leaves the rest, and its variates
    are the images of the draws, in order. *)
Theorem run_beasley_springer_moro_maps_draws (us ds tk : list R) :
  Forall (fun u => 0 < u < 1) us ->
  exists xs,
    run_beasley_springer_moro (Z.of_nat (List.length us))
      {| draws := us ++ ds; ticks := tk |}
    = Done (xs, {| draws := ds; ticks := tk |}) /\
    Forall2 (fun u x => inverse_cdf u = Done x) us xs.
Proof.
  intro Hus.
  assert (Hxs : exists xs, Forall2 (fun u x => inverse_cdf u = Done x) us xs).
  { induction Hus as [|u us Hu _ IH]; [exists []; constructor|].
    destruct IH as [xs Hxs]. destruct (inverse_cdf_total Hu) as [x Hx].
    exists (x :: xs). now constructor. }
  destruct Hxs as [xs Hxs]. exists xs. split; [|exact Hxs].
  unfold run_beasley_springer_moro. rewrite Nat2Z.id.
  now apply for_range_beasley_springer_moro.
Qed.

(** *** Tables already in order *)

Lemma insert_by_time_front (x : string * R) (l : list (string * R)) :
  HdRel by_time x l -> insert_by_time x l = x :: l.
Proof.
  intro Hh. destruct l as [|y l]; [reflexivity|].
  inversion Hh as [|? ? Hxy]; subst. simpl.
  cbn [fltb exact]. rewrite Rltb_false; [reflexivity | exact Hxy].
Qed.

(** X12. [sorted] leaves a table that is already ascending as it is,
    entries with equal times included: they keep the order in which the
    cells recorded them. *)
Theorem sorted_by_time_ascending_unchanged (l : list (string * R)) :
  Sorted by_time l -> sorted_by_time l = l.
Proof.
  induction 1 as [|x l Hs IH Hh]; [reflexivity|].
  simpl. rewrite IH. now apply insert_by_time_front.
Qed.

(** *** Runs on recorded draws *)

Lemma ar_verdict_large_U3 : ar_verdict (0.5, 0.5, 0.75) = Done Again.
Proof.
  unfold ar_verdict. rewrite math_log_exact by lra. cbn [outcome_map].
  rewrite ar_accepts_half. exact_ops. exact_small_lits.
  now rewrite Rleb_false by lra.
Qed.

Lemma ar_verdict_small_U3 :
  ar_verdict (0.5, 0.5, 0.25) = Done (Break (- - ln 0.5)).
Proof.
  unfold ar_verdict. rewrite math_log_exact by lra. cbn [outcome_map].
  rewrite ar_accepts_half. exact_ops. exact_small_lits.
  now rewrite Rleb_true by lra.
Qed.

Lemma polar_verdict_outside : polar_verdict (1, 1) = Done Again.
Proof.
  unfold polar_verdict. exact_ops. exact_small_lits.
  now rewrite Rleb_false by lra.
Qed.

(** One triple sent back, then the accepted triple (0.5, 0.5, 0.25). *)
Lemma acceptance_rejection_first_verdict_witness :
  Forall (fun r => ar_verdict r = Done Again) [(0.5, 0.5, 0.75)] /\
  acceptance_rejection
    {| draws := [0.5; 0.5; 0.75; 0.5; 0.5; 0.25; 0.125]; ticks := [] |}
  = Done (- - ln 0.5, {| draws := [0.125]; ticks := [] |}).
Proof.
  assert (Hr : Forall (fun r => ar_verdict r = Done Again) [(0.5, 0.5, 0.75)])
    by (repeat constructor; exact ar_verdict_large_U3).
  split; [exact Hr|].
  pose proof (@acceptance_rejection_first_verdict R exact
                [(0.5, 0.5, 0.75)] (0.5, 0.5, 0.25) [0.125] [] Hr) as Hv.
  rewrite ar_verdict_small_U3 in Hv. exact Hv.
Defined.

(** One pair outside the disc, then the pair (0.5, 0.5). *)
Lemma bray_marsaglia_first_verdict_witness :
  Forall (fun r => polar_verdict r = Done Again) [(1, 1)] /\
  bray_marsaglia {| draws := [1; 1; 0.5; 0.5; 0.125]; ticks := [] |}
  = Done ((0.5 * R_sqrt.sqrt (-2 * ln (0.5 * 0.5 + 0.5 * 0.5) / (0.5 * 0.5 + 0.5 * 0.5)),
           0.5 * R_sqrt.sqrt (-2 * ln (0.5 * 0.5 + 0.5 * 0.5) / (0.5 * 0.5 + 0.5 * 0.5))),
          {| draws := [0.125]; ticks := [] |}).
Proof.
  assert (Hr : Forall (fun r => polar_verdict r = Done Again) [(1, 1)])
    by (repeat constructor; exact polar_verdict_outside).
  split; [exact Hr|].
  pose proof (@bray_marsaglia_first_verdict R exact
                [(1, 1)] (0.5, 0.5) [0.125] [] Hr) as Hv.
  rewrite (@bray_marsaglia_accepts 0.5 0.5) in Hv by lra. exact Hv.
Defined.

Lemma acceptance_rejection_never_raises_witness :
  (exists x w', acceptance_rejection
                  {| draws := [0.5; 0.5; 0.25]; ticks := [] |} = Done (x, w')) \/
  acceptance_rejection {| draws := [0.5; 0.5; 0.25]; ticks := [] |} = Starved.
Proof.
  apply (@acceptance_rejection_never_raises R exact
           {| draws := [0.5; 0.5; 0.25]; ticks := [] |}).
  repeat constructor; exact_ops; exact_small_lits; apply Rleb_false; lra.
Defined.

Lemma bray_marsaglia_never_raises_witness :
  (exists p w', bray_marsaglia
                  {| draws := [1; 1; 0.5; 0.5]; ticks := [] |} = Done (p, w')) \/
  bray_marsaglia {| draws := [1; 1; 0.5; 0.5]; ticks := [] |} = Starved.
Proof.
  apply (@bray_marsaglia_never_raises
           {| draws := [1; 1; 0.5; 0.5]; ticks := [] |}).
  repeat constructor; simpl; lra.
Defined.

Lemma box_mueller_radius_witness :
  exists Z1 Z2,
    box_mueller {| draws := [0.5; 0.5]; ticks := [] |}
    = Done ((Z1, Z2), {| draws := []; ticks := [] |}) /\
    Z1 * Z1 + Z2 * Z2 = -2 * ln 0.5.
Proof.
  destruct (box_mueller_half [] []) as ([Z1 Z2] & Hd).
  exists Z1, Z2. split; [exact Hd|].
  apply (@box_mueller_radius 0.5 0.5 Z1 Z2 [] []
           {| draws := []; ticks := [] |}); [lra | exact Hd].
Defined.

Lemma bray_marsaglia_radius_witness :
  exists X Y skipped U1 U2,
    [0.5; 0.5] = skipped ++ [U1; U2] /\
    0 < U1 * U1 + U2 * U2 <= 1 /\
    X * X + Y * Y = -2 * ln (U1 * U1 + U2 * U2) /\ X * U2 = Y * U1.
Proof.
  destruct (bray_marsaglia_half [] []) as ([X Y] & Hd).
  exists X, Y. exact (@bray_marsaglia_radius _ X Y _ Hd).
Defined.

Lemma inverse_cdf_sign_witness :
  exists x, inverse_cdf 0.25 = Done x /\ x < 0.
Proof.
  assert (HU : 0 < 0.25 < 1) by lra.
  destruct (inverse_cdf_total HU) as [x Hx].
  exists x. split; [exact Hx|].
  apply (@inverse_cdf_sign 0.25 x HU Hx). lra.
Defined.

Lemma run_beasley_springer_moro_maps_draws_witness :
  exists xs,
    run_beasley_springer_moro 2 {| draws := [0.25; 0.5; 0.75]; ticks := [] |}
    = Done (xs, {| draws := [0.75]; ticks := [] |}) /\
    Forall2 (fun u x => inverse_cdf u = Done x) [0.25; 0.5] xs.
Proof.
  apply (@run_beasley_springer_moro_maps_draws [0.25; 0.5] [0.75] []).
  repeat constructor; lra.
Defined.

(** The clock readings of the recorded run. *)
Lemma comp_efficiency_clock_witness :
  exists d w' (t0 t1 t2 t3 t4 t5 t6 t7 : R),
    comp_efficiency 2 recorded_run = Done (d, w') /\
    [0; 6; 6; 45; 45; 56; 56; 59] = [t0; t1; t2; t3; t4; t5; t6; t7] ++ ticks w' /\
    d = [("Box-Mueller"%string, t1 - t0);
         ("Acceptance-Rejection"%string, t3 - t2);
         ("Bray-Marsaglia"%string, t5 - t4);
         ("Beasley-Springer-Moro"%string, t7 - t6)].
Proof.
  destruct recorded_run_times as (d & w' & Hd).
  destruct (@comp_efficiency_clock R exact 2 recorded_run d w' Hd)
    as (t0 & t1 & t2 & t3 & t4 & t5 & t6 & t7 & Ht & Hdict).
  exists d, w', t0, t1, t2, t3, t4, t5, t6, t7.
  split; [exact Hd|]. split; [exact Ht | exact Hdict].
Defined.

(** A table with a tie, already in order. *)
Lemma sorted_by_time_ascending_unchanged_witness :
  sorted_by_time [("Bray-Marsaglia"%string, 1); ("Box-Mueller"%string, 1);
                  ("Acceptance-Rejection"%string, 2)]
  = [("Bray-Marsaglia"%string, 1); ("Box-Mueller"%string, 1);
     ("Acceptance-Rejection"%string, 2)].
Proof.
  apply (@sorted_by_time_ascending_unchanged
           [("Bray-Marsaglia"%string, 1); ("Box-Mueller"%string, 1);
            ("Acceptance-Rejection"%string, 2)]).
  repeat constructor; unfold by_time; simpl; lra.
Defined.

End ExactProperties.

(** ** In binary64 *)

Section Binary64Properties.

(** X13. Loop bounds below one, in binary64. For [N <= 0] the two cells
    over [range(N)] run no pass and take no draw. For [N <= 1] the two
    cells over pairs never run a pass: either [range(int(N / 2))] is empty
    or [N / 2] raises OverflowError. The range is empty for every
    [-2^53 < N <= 1]; the division overflows at [N = -2^1025]. *)
Theorem empty_ranges (L : libm) (N : Z) (w : @world float) :
  ((N <= 0)%Z ->
     run_acceptance_rejection (H := binary64 L) N w = Done ([], w) /\
     run_beasley_springer_moro (H := binary64 L) N w = Done ([], w)) /\
  ((N <= 1)%Z ->
     (run_box_mueller (H := binary64 L) N w = Done ([], w) /\
      run_bray_marsaglia (H := binary64 L) N w = Done ([], w)) \/
     (run_box_mueller (H := binary64 L) N w = Raised OverflowError /\
      run_bray_marsaglia (H := binary64 L) N w = Raised OverflowError)) /\
  ((- 2 ^ 53 < N <= 1)%Z ->
     run_box_mueller (H := binary64 L) N w = Done ([], w) /\
     run_bray_marsaglia (H := binary64 L) N w = Done ([], w)) /\
  (N = (- 2 ^ 1025)%Z ->
     run_box_mueller (H := binary64 L) N w = Raised OverflowError /\
     run_bray_marsaglia (H := binary64 L) N w = Raised OverflowError).
Proof.
  split; [|split; [|split]].
  - intro HN. unfold run_acceptance_rejection, run_beasley_springer_moro.
    replace (Z.to_nat N) with 0%nat by lia. split; reflexivity.
  - intro HN. destruct N as [|p|p].
    + left. unfold run_box_mueller, run_bray_marsaglia.
      split; apply pair_run_empty with (k := 0%Z); (reflexivity || lia).
    + assert (p = 1%positive) by lia. subst p.
      left. unfold run_box_mueller, run_bray_marsaglia.
      split; apply pair_run_empty with (k := 0%Z); (reflexivity || lia).
    + pose proof (int_half_negative L p) as Hh.
      destruct (int_half (H := binary64 L) (Zneg p)) as [k|e|] eqn:Ek;
        [left|right|contradiction]; unfold run_box_mueller, run_bray_marsaglia.
      * split; apply pair_run_empty with (k := k); assumption.
      * subst e. split; apply pair_run_overflow; assumption.
  - intros [Hlo Hhi]. unfold run_box_mueller, run_bray_marsaglia.
    destruct N as [|p|p].
    + split; apply pair_run_empty with (k := 0%Z); (reflexivity || lia).
    + assert (p = 1%positive) by lia. subst p.
      split; apply pair_run_empty with (k := 0%Z); (reflexivity || lia).
    + assert (Hp : (Zpos p < 2 ^ 53)%Z) by lia.
      assert (Hq : (0 <= Zpos p / 2)%Z) by (apply Z.div_pos; lia).
      split; apply pair_run_empty with (k := (- (Zpos p / 2))%Z);
        solve [now apply int_half_opp | lia].
  - intros ->. unfold run_box_mueller, run_bray_marsaglia.
    split; apply pair_run_overflow; vm_compute; reflexivity.
Qed.

End Binary64Properties.
